(** * Verification of [.github/scripts/extract_strings.py]

    A shallow embedding of [StringExtraction.extractStrings] and
    [StringExtraction.getTranslations], followed by the properties of the
    extraction pass and of the reshape-and-filter pass.

    Python strings are modelled as [string] (UTF-8 bytes: byte-wise
    lexicographic order coincides with code-point order, and the byte of
    [":"] never occurs inside a multi-byte sequence).  Python dictionaries
    keep insertion order, which the JSON writer exposes, so they are
    association lists with unique keys. *)

From Stdlib Require Import String Ascii List Bool Arith ZArith Lia.
From Stdlib Require Import Permutation Sorted Orders Mergesort.
Import ListNotations.
Open Scope string_scope.

(** ** Exceptions *)

Inductive exn := ValueError | KeyError.

Inductive result (A : Type) : Type :=
| Ok (a : A)
| Raise (e : exn).
Arguments Ok {A} a.
Arguments Raise {A} e.

Definition bind {A B : Type} (r : result A) (k : A -> result B) : result B :=
  match r with
  | Ok a => k a
  | Raise e => Raise e
  end.

Notation "x <- r ;; k" := (bind r (fun x => k))
  (at level 61, r at next level, right associativity).

(** A [for] loop whose body may raise. *)
Fixpoint foldM {A B : Type} (f : A -> B -> result A) (l : list B) (a : A)
  : result A :=
  match l with
  | [] => Ok a
  | b :: r => a' <- f a b ;; foldM f r a'
  end.

(** ** Insertion-ordered dictionaries *)

Module Dict.
Abbreviation t V := (list (string * V)) (only parsing).

Section Defs.
Context {V : Type}.
Implicit Types d : t V.

Fixpoint get (k : string) d : option V :=
  match d with
  | [] => None
  | (k', v) :: r => if k' =? k then Some v else get k r
  end.

(** [k in d] *)
Definition mem (k : string) d : bool :=
  match get k d with Some _ => true | None => false end.

(** [d[k] = v]: an existing key keeps its position, a new one goes last. *)
Fixpoint set (k : string) (v : V) d : t V :=
  match d with
  | [] => [(k, v)]
  | (k', v') :: r =>
      if k' =? k then (k', v) :: r else (k', v') :: set k v r
  end.

(** [d.update(entries)] *)
Definition update d (entries : list (string * V)) : t V :=
  fold_left (fun d kv => set (fst kv) (snd kv) d) entries d.

(** [del d[k]] *)
Fixpoint del (k : string) d : result (t V) :=
  match d with
  | [] => Raise KeyError
  | (k', v') :: r =>
      if k' =? k then Ok r
      else r' <- del k r ;; Ok ((k', v') :: r')
  end.

Definition keys d : list string := map fst d.
End Defs.
End Dict.

(** [collections.defaultdict(dict)]: reading a missing key stores and
    returns an empty dictionary. *)
Definition touch {V : Type} (k : string) (d : Dict.t (Dict.t V))
  : Dict.t (Dict.t V) :=
  if Dict.mem k d then d else (d ++ [(k, [])])%list.

Definition dd_get {V : Type} (k : string) (d : Dict.t (Dict.t V)) : Dict.t V :=
  match Dict.get k d with Some v => v | None => [] end.

(** ** Paths: [os.path.splitext] and [os.path.basename] (posix) *)

Open Scope Z_scope.

(** [s.rfind(c)] with [i] the index of the head of [s]; [-1] when absent. *)
Fixpoint rfind_from (c : ascii) (s : string) (i : Z) : Z :=
  match s with
  | EmptyString => -1
  | String a r =>
      let j := rfind_from c r (i + 1) in
      if 0 <=? j then j else if Ascii.eqb a c then i else -1
  end.

Definition rfind (c : ascii) (s : string) : Z := rfind_from c s 0.

(** [p[i:j]] for [0 <= i]. *)
Definition slice (p : string) (i j : Z) : string :=
  substring (Z.to_nat i) (Z.to_nat (j - i)) p.

Definition char_at (p : string) (i : Z) : option ascii :=
  String.get (Z.to_nat i) p.

(** The [while] loop of [genericpath._splitext]: is there a character other
    than the dot in [p[filenameIndex:dotIndex]]? *)
Fixpoint skip_leading_dots (p : string) (filenameIndex : Z) (n : nat) : bool :=
  match n with
  | O => false
  | S n' =>
      match char_at p filenameIndex with
      | Some "."%char => skip_leading_dots p (filenameIndex + 1) n'
      | _ => true
      end
  end.

Definition splitext (p : string) : string * string :=
  let sepIndex := rfind "/"%char p in
  let dotIndex := rfind "."%char p in
  let len := Z.of_nat (String.length p) in
  if (sepIndex <? dotIndex)
     && skip_leading_dots p (sepIndex + 1) (Z.to_nat (dotIndex - (sepIndex + 1)))
  then (slice p 0 dotIndex, slice p dotIndex len)
  else (p, EmptyString).

Definition basename (p : string) : string :=
  let i := rfind "/"%char p + 1 in
  slice p i (Z.of_nat (String.length p)).

Close Scope Z_scope.

(** ** The collaborators of the extraction pass *)

(** What [p.parse()] yields. *)
Record Entity := { key : string; raw_val : string }.

(** The project configuration, the file system and the parsers of
    [compare_locales], as far as [extractStrings] consults them. *)
Record Project := {
  (** [project_config.all_locales] *)
  all_locales : list string;
  (** [paths.ProjectFiles(locale, [project_config])], first two components:
      [(l10n_file, reference_file)] *)
  ProjectFiles : string -> list (string * string);
  (** [os.path.exists] *)
  path_exists : string -> bool;
  (** [os.path.relpath(., basedir)] *)
  relpath : string -> string;
  (** [parser.getParser]: [None] stands for [UserWarning]; a parser is
      named by its format *)
  getParser : string -> option string;
  (** [p.readFile(file)] followed by [p.parse()] *)
  parse : string -> string -> list Entity
}.

(** ** [StringExtraction.extractStrings] *)

Definition Table := Dict.t (Dict.t string).

Record State := {
  translations : Table;
  reference_cache : Dict.t (list string)
}.

(** [f"{experiment_id}:{entity.key}"] *)
Definition full_id (experiment_id k : string) : string :=
  experiment_id ++ ":" ++ k.

Definition entries (experiment_id : string) (es : list Entity)
  : list (string * string) :=
  map (fun entity => (full_id experiment_id (key entity), raw_val entity)) es.

(** [translations[locale].update(es)] on a [defaultdict(dict)] *)
Definition table_update (locale : string) (es : list (string * string))
  (t : Table) : Table :=
  Dict.set locale (Dict.update (dd_get locale t) es) t.

Definition experiment_of (key_path : string) : string :=
  basename (fst (splitext key_path)).

(** Lines 63-72: the reference file is read once per [key_path]. *)
Definition read_reference (P : Project) (reference_locale : string)
  (p reference_file : string) (st : State) : State :=
  let key_path := relpath P reference_file in
  let experiment_id := experiment_of key_path in
  if Dict.mem key_path (reference_cache st) then st
  else
    {| translations :=
         table_update reference_locale
           (entries experiment_id (parse P p reference_file))
           (translations st);
       reference_cache :=
         Dict.set key_path (map key (parse P p reference_file))
           (reference_cache st) |}.

(** Lines 74-81: the localized file is read for every pair. *)
Definition read_l10n (P : Project) (locale p l10n_file reference_file : string)
  (st : State) : State :=
  let experiment_id := experiment_of (relpath P reference_file) in
  {| translations :=
       table_update locale (entries experiment_id (parse P p l10n_file))
         (translations st);
     reference_cache := reference_cache st |}.

(** The body of the inner loop, lines 49-81. *)
Definition process_pair (P : Project) (reference_locale locale : string)
  (st : State) (pair : string * string) : State :=
  let '(l10n_file, reference_file) := pair in
  if negb (path_exists P l10n_file) then st
  else if negb (path_exists P reference_file) then st
  else
    match getParser P reference_file with
    | None => st
    | Some p =>
        read_l10n P locale p l10n_file reference_file
          (read_reference P reference_locale p reference_file st)
    end.

(** Lines 84-89: the dictionary comprehension reads [translations[locale]]
    first and [translations[reference_locale]] once per item. *)
Definition remove_obsolete (reference_locale locale : string) (t : Table)
  : Table :=
  let t1 := touch locale t in
  let items := dd_get locale t1 in
  let t2 := match items with [] => t1 | _ :: _ => touch reference_locale t1 end in
  let reference := dd_get reference_locale t2 in
  Dict.set locale (filter (fun kv => Dict.mem (fst kv) reference) items) t2.

(** The body of the outer loop, lines 46-90. *)
Definition process_locale (P : Project) (reference_locale : string)
  (st : State) (locale : string) : State :=
  let st1 :=
    fold_left (process_pair P reference_locale locale) (ProjectFiles P locale) st in
  let t :=
    if locale =? reference_locale then translations st1
    else remove_obsolete reference_locale locale (translations st1) in
  (* [len(self.translations[locale])] *)
  {| translations := touch locale t; reference_cache := reference_cache st1 |}.

Definition initial : State := {| translations := []; reference_cache := [] |}.

Definition extract_state (P : Project) (reference_locale : string) : State :=
  fold_left (process_locale P reference_locale) (all_locales P) initial.

Definition extractStrings (P : Project) (reference_locale : string) : Table :=
  translations (extract_state P reference_locale).

(** ** [StringExtraction.getTranslations] *)

(** [s.split(sep)] for a one-character separator. *)
Fixpoint split (sep : ascii) (s : string) : list string :=
  match s with
  | EmptyString => [EmptyString]
  | String c r =>
      if Ascii.eqb c sep then EmptyString :: split sep r
      else
        match split sep r with
        | h :: t => String c h :: t
        | [] => [String c EmptyString]
        end
  end.

(** [experiment_id, message_id = full_id.split(":")]: unpacking raises
    [ValueError] unless the list has exactly two elements. *)
Definition unpack_id (full_id : string) : result (string * string) :=
  match split ":"%char full_id with
  | [experiment_id; message_id] => Ok (experiment_id, message_id)
  | _ => Raise ValueError
  end.

Record ExpData := {
  exp_translations : Dict.t (Dict.t string);
  complete_locales : list string
}.

Definition Output := Dict.t ExpData.

(** Lines 99-106. *)
Definition add_message (locale experiment_id message_id translation : string)
  (json_output : Output) : Output :=
  let exp_data :=
    match Dict.get experiment_id json_output with
    | Some d => d
    | None => {| exp_translations := []; complete_locales := [] |}
    end in
  Dict.set experiment_id
    {| exp_translations :=
         Dict.set locale
           (Dict.set message_id translation
              (dd_get locale (exp_translations exp_data)))
           (exp_translations exp_data);
       complete_locales := complete_locales exp_data |}
    json_output.

(** Lines 97-106. *)
Definition add_messages (locale : string) (json_output : Output)
  (item : string * string) : result Output :=
  ids <- unpack_id (fst item) ;;
  Ok (add_message locale (fst ids) (snd ids) (snd item) json_output).

(** Lines 96-106. *)
Definition invert (t : Table) : result Output :=
  foldM (fun json_output lm => foldM (add_messages (fst lm)) (snd lm) json_output)
    t [].

(** [list.sort()] on strings: the order is total, so the stable sort of
    Python yields the one sorted permutation, as merge sort does. *)
Module StringOrder <: TotalLeBool.
Definition t := string.
Definition leb := String.leb.
Lemma leb_total : forall a1 a2, leb a1 a2 = true \/ leb a2 a1 = true.
Proof. exact String.leb_total. Qed.
End StringOrder.

Module StringSort := Sort StringOrder.

Definition sort (l : list string) : list string := StringSort.sort l.

Definition inb (x : string) (l : list string) : bool := existsb (String.eqb x) l.

(** [set(a) - set(b)], as the list of its elements without repetition. *)
Definition set_diff (a b : list string) : list string :=
  nodup string_dec (filter (fun x => negb (inb x b)) a).

(** Iterating over a [set] of strings visits its elements in an order that
    depends on the hash seed of the run. *)
Record HashOrder := {
  set_list : list string -> list string;
  set_list_perm : forall l, NoDup l -> Permutation (set_list l) l
}.

Fixpoint list_eqb (a b : list string) : bool :=
  match a, b with
  | [], [] => true
  | x :: a', y :: b' => (x =? y) && list_eqb a' b'
  | _, _ => false
  end.

(** Lines 117-122: returns [(complete_locales, incomplete_locales)]. *)
Fixpoint classify (tr : Dict.t (Dict.t string)) (reference_ids : list string)
  (locales complete incomplete : list string) : list string * list string :=
  match locales with
  | [] => (complete, incomplete)
  | l :: rest =>
      let l10n_ids := Dict.keys (dd_get l tr) in
      if (List.length (set_diff reference_ids l10n_ids) =? 0)%nat
      then classify tr reference_ids rest (complete ++ [l])%list incomplete
      else classify tr reference_ids rest complete (incomplete ++ [l])%list
  end.

(** The body of the loop of lines 111-132: the updated record and whether
    the experiment goes to [partial_experiments]. *)
Definition filter_experiment (H : HashOrder) (reference_locale : string)
  (exp_data : ExpData) : result (ExpData * bool) :=
  let locales := sort (Dict.keys (exp_translations exp_data)) in
  let tr := touch reference_locale (exp_translations exp_data) in
  let reference_ids := Dict.keys (dd_get reference_locale tr) in
  let '(complete, incomplete) :=
    classify tr reference_ids locales (complete_locales exp_data) [] in
  tr' <- foldM (fun tr l => Dict.del l tr) incomplete tr ;;
  Ok ({| exp_translations := tr'; complete_locales := sort complete |},
      list_eqb (set_list H (set_diff locales incomplete)) [reference_locale]).

(** Lines 110-132: the records are updated in place, so the dictionary
    keeps its keys and their order. *)
Fixpoint filter_experiments (H : HashOrder) (reference_locale : string)
  (json_output : Output) : result (Output * list string) :=
  match json_output with
  | [] => Ok ([], [])
  | (exp_id, exp_data) :: rest =>
      r <- filter_experiment H reference_locale exp_data ;;
      rs <- filter_experiments H reference_locale rest ;;
      Ok ((exp_id, fst r) :: fst rs,
          if snd r then exp_id :: snd rs else snd rs)
  end.

Definition getTranslations (H : HashOrder) (reference_locale : string)
  (t : Table) : result Output :=
  json_output <- invert t ;;
  r <- filter_experiments H reference_locale json_output ;;
  foldM (fun out exp_id => Dict.del exp_id out) (snd r) (fst r).

(** [main], lines 159-160. *)
Definition run (H : HashOrder) (P : Project) (reference_locale : string)
  : result Output :=
  getTranslations H reference_locale (extractStrings P reference_locale).

(** ** Vocabulary of the statements *)

(** [translations[locale].get(k)] without the side effect. *)
Definition lookup (t : Table) (locale k : string) : option string :=
  Dict.get k (dd_get locale t).

(** [k in translations[locale]] *)
Definition has_key (t : Table) (locale k : string) : bool :=
  Dict.mem k (dd_get locale t).

(** A table is a dictionary of dictionaries: keys are unique at both levels. *)
Definition wf_table (t : Table) : Prop :=
  NoDup (Dict.keys t) /\
  forall locale d, In (locale, d) t -> NoDup (Dict.keys d).

(** The message ids a locale has for an experiment, read off the composite
    keys of its table. *)
Definition message_ids (t : Table) (locale experiment_id : string)
  : list string :=
  flat_map
    (fun kv =>
       match unpack_id (fst kv) with
       | Ok (e, m) => if e =? experiment_id then [m] else []
       | Raise _ => []
       end)
    (dd_get locale t).

(** The completeness criterion of the glossary. *)
Definition complete (t : Table) (reference_locale experiment_id locale : string)
  : Prop :=
  incl (message_ids t reference_locale experiment_id)
       (message_ids t locale experiment_id).

(** The experiments a table mentions. *)
Definition experiments (t : Table) : list string :=
  flat_map
    (fun lm =>
       flat_map
         (fun kv =>
            match unpack_id (fst kv) with
            | Ok (e, _) => [e]
            | Raise _ => []
            end)
         (snd lm))
    t.

Fixpoint count_colons (s : string) : nat :=
  match s with
  | EmptyString => 0
  | String c r => (if Ascii.eqb c ":"%char then 1 else 0) + count_colons r
  end.

(** The value the last of the [entries] with key [k] carries. *)
Fixpoint last_write {V : Type} (k : string) (entries : list (string * V))
  : option V :=
  match entries with
  | [] => None
  | (k', v) :: r =>
      match last_write k r with
      | Some v' => Some v'
      | None => if k' =? k then Some v else None
      end
  end.

Definition ascending (l : list string) : Prop :=
  Sorted (fun a b => String.leb a b = true) l.

Definition tag (locale : string) (es : list (string * string))
  : list (string * string * string) :=
  map (fun kv => (locale, fst kv, snd kv)) es.

(** The insertions [(locale, full_id, raw_val)] that one pass of the inner
    loop body performs, in the order of lines 66 and 75. *)
Definition pair_writes (P : Project) (reference_locale locale : string)
  (st : State) (pair : string * string) : list (string * string * string) :=
  let '(l10n_file, reference_file) := pair in
  if negb (path_exists P l10n_file) then []
  else if negb (path_exists P reference_file) then []
  else
    match getParser P reference_file with
    | None => []
    | Some p =>
        let key_path := relpath P reference_file in
        let experiment_id := experiment_of key_path in
        ((if Dict.mem key_path (reference_cache st) then []
          else tag reference_locale
                 (entries experiment_id (parse P p reference_file)))
         ++ tag locale (entries experiment_id (parse P p l10n_file)))%list
    end.

Fixpoint pairs_writes (P : Project) (reference_locale locale : string)
  (pairs : list (string * string)) (st : State)
  : list (string * string * string) :=
  match pairs with
  | [] => []
  | pr :: rest =>
      (pair_writes P reference_locale locale st pr
       ++ pairs_writes P reference_locale locale rest
            (process_pair P reference_locale locale st pr))%list
  end.

Fixpoint locales_writes (P : Project) (reference_locale : string)
  (locales : list string) (st : State) : list (string * string * string) :=
  match locales with
  | [] => []
  | locale :: rest =>
      (pairs_writes P reference_locale locale (ProjectFiles P locale) st
       ++ locales_writes P reference_locale rest
            (process_locale P reference_locale st locale))%list
  end.

(** Every insertion of a run of [extractStrings], oldest first. *)
Definition write_log (P : Project) (reference_locale : string)
  : list (string * string * string) :=
  locales_writes P reference_locale (all_locales P) initial.

(** The project without the pairs that lines 49-55 skip. *)
Definition both_exist (P : Project) (pair : string * string) : bool :=
  path_exists P (fst pair) && path_exists P (snd pair).

Definition without_missing (P : Project) : Project :=
  {| all_locales := all_locales P;
     ProjectFiles := fun locale => filter (both_exist P) (ProjectFiles P locale);
     path_exists := path_exists P;
     relpath := relpath P;
     getParser := getParser P;
     parse := parse P |}.

(** The reference files the configuration names. *)
Definition reference_files (P : Project) : list string :=
  flat_map (fun locale => map snd (ProjectFiles P locale)) (all_locales P).

(** [os.path.relpath] tells the reference files of a project apart. *)
Definition relpath_faithful (P : Project) : Prop :=
  forall f f',
    In f (reference_files P) -> In f' (reference_files P) ->
    relpath P f = relpath P f' -> f = f'.

(** No table but the reference one holds a key the reference table lacks;
    the table of [L] is exempt while its files are being read. *)
Definition clean_except (ref L : string) (t : Table) : Prop :=
  forall l k, l <> ref -> l <> L ->
              lookup t l k <> None -> lookup t ref k <> None.

(** The insertions of a log into the table of one locale. *)
Definition writes_to (locale : string) (log : list (string * string * string))
  : list (string * string) :=
  flat_map
    (fun w => if fst (fst w) =? locale then [(snd (fst w), snd w)] else [])
    log.

(** Every stored value is the one the log wrote last. *)
Definition log_sound (t : Table) (log : list (string * string * string))
  : Prop :=
  forall l k v, lookup t l k = Some v -> last_write k (writes_to l log) = Some v.

(** Every cached [key_path] belongs to a reference file whose entries the
    reference table holds. *)
Definition cache_sound (P : Project) (ref : string) (st : State) : Prop :=
  forall key_path,
    Dict.mem key_path (reference_cache st) = true ->
    exists rf p,
      In rf (reference_files P) /\ relpath P rf = key_path /\
      getParser P rf = Some p /\
      forall k, In k (map key (parse P p rf)) ->
                lookup (translations st) ref
                  (full_id (experiment_of key_path) k) <> None.

(** [json_output[experiment_id]["translations"][locale].get(message_id)]
    without the side effects. *)
Definition olookup (json_output : Output) (experiment_id locale message_id : string)
  : option string :=
  match Dict.get experiment_id json_output with
  | Some d => Dict.get message_id (dd_get locale (exp_translations d))
  | None => None
  end.

(** The records the first loop of [getTranslations] builds: nothing is
    empty and no locale is marked complete yet. *)
Definition wf_record (d : ExpData) : Prop :=
  wf_table (exp_translations d) /\
  exp_translations d <> [] /\
  (forall l dl, In (l, dl) (exp_translations d) -> dl <> []) /\
  complete_locales d = [].

Definition wf_output (json_output : Output) : Prop :=
  NoDup (Dict.keys json_output) /\
  forall e d, In (e, d) json_output -> wf_record d.

(** The value the last entry of [locale] with key [k] carries, over a
    list of [(locale, messages)] read front to back. *)
Fixpoint table_last (t : Table) (locale k : string) : option string :=
  match t with
  | [] => None
  | (l', d) :: r =>
      match table_last r locale k with
      | Some v => Some v
      | None => if l' =? locale then last_write k d else None
      end
  end.

(** The test of line 119 for one locale of a record. *)
Definition is_complete (tr : Dict.t (Dict.t string)) (reference_ids : list string)
  (l : string) : bool :=
  (List.length (set_diff reference_ids (Dict.keys (dd_get l tr))) =? 0)%nat.

(** What the loop body of lines 111-132 leaves of a record, and its
    verdict, free of exceptions and of the hash order. *)
Definition completeb (ref : string) (d : ExpData) (l : string) : bool :=
  is_complete (exp_translations d)
    (Dict.keys (dd_get ref (exp_translations d))) l.

Definition incomplete_locales (ref : string) (d : ExpData) : list string :=
  filter (fun l => negb (completeb ref d l))
    (sort (Dict.keys (exp_translations d))).

Definition filtered (ref : string) (d : ExpData) : ExpData :=
  {| exp_translations :=
       filter (fun kv => negb (inb (fst kv) (incomplete_locales ref d)))
         (touch ref (exp_translations d));
     complete_locales :=
       sort (complete_locales d ++
             filter (completeb ref d) (sort (Dict.keys (exp_translations d)))) |}.

Definition only_reference (ref : string) (d : ExpData) : bool :=
  list_eqb
    (set_diff (sort (Dict.keys (exp_translations d))) (incomplete_locales ref d))
    [ref].

(** ** The output writer, lines 162-165 *)

(** [os.path.join(a, b)] (posix, two arguments). *)
Definition path_join (a b : string) : string :=
  if prefix "/" b then b
  else if (a =? "") || (0 <=? rfind "/"%char a)%Z
                       && (rfind "/"%char a =? Z.of_nat (String.length a) - 1)%Z
       then a ++ b
       else a ++ "/" ++ b.

(** The files [main] writes, in order; [dump] stands for [json.dump] with
    its fixed options. *)
Definition main (dump : ExpData -> string) (H : HashOrder) (P : Project)
  (reference_code dest_path : string) : result (list (string * string)) :=
  translations <- run H P reference_code ;;
  Ok (map (fun item =>
             (path_join dest_path (fst item ++ ".json"), dump (snd item)))
        translations).

(** ** Sample projects *)

Module Sample.

Definition entity (k v : string) : Entity := {| key := k; raw_val := v |}.

(** A hash order: sets list their elements as they were inserted. *)
Definition insertion_order : HashOrder :=
  {| set_list := fun l => l;
     set_list_perm := fun l _ => Permutation_refl l |}.

(** Another one: last inserted, first listed. *)
Definition reverse_order : HashOrder :=
  {| set_list := @rev string;
     set_list_perm := fun l _ => Permutation_sym (Permutation_rev l) |}.

(** The scenario of the specification: [fr] translates all of
    [greeting], [de] half of it; [solo] has no complete translation and
    [fr/solo.ftl] does not exist. *)
Definition greeting : Project :=
  {| all_locales := ["de"; "en-US"; "fr"];
     ProjectFiles := fun l =>
       [(l ++ "/greeting.ftl", "en-US/greeting.ftl");
        (l ++ "/solo.ftl", "en-US/solo.ftl")];
     path_exists := fun f => negb (f =? "fr/solo.ftl");
     relpath := fun f => f;
     getParser := fun f => Some "ftl";
     parse := fun p f =>
       if f =? "en-US/greeting.ftl"
       then [entity "hello" "Hello"; entity "bye" "Bye"]
       else if f =? "fr/greeting.ftl"
       then [entity "hello" "Bonjour"; entity "bye" "Au revoir";
             entity "old" "Vieux"]
       else if f =? "de/greeting.ftl" then [entity "hello" "Hallo"]
       else if f =? "en-US/solo.ftl" then [entity "a" "A"]
       else [] |}.

Definition greeting_record : ExpData :=
  {| exp_translations :=
       [("en-US", [("hello", "Hello"); ("bye", "Bye")]);
        ("fr", [("hello", "Bonjour"); ("bye", "Au revoir")])];
     complete_locales := ["en-US"; "fr"] |}.

Definition greeting_output : Output := [("greeting", greeting_record)].

(** Two files share the experiment id [greeting] and the key [hello]. *)
Definition collision : Project :=
  {| all_locales := ["en-US"; "fr"];
     ProjectFiles := fun l =>
       [(l ++ "/a/greeting.ftl", "en-US/a/greeting.ftl");
        (l ++ "/b/greeting.ftl", "en-US/b/greeting.ftl")];
     path_exists := fun f => true;
     relpath := fun f => f;
     getParser := fun f => Some "ftl";
     parse := fun p f =>
       if f =? "en-US/a/greeting.ftl" then [entity "hello" "Hello"]
       else if f =? "en-US/b/greeting.ftl" then [entity "hello" "Hi"]
       else if f =? "fr/a/greeting.ftl" then [entity "hello" "Bonjour"]
       else if f =? "fr/b/greeting.ftl" then [entity "hello" "Salut"]
       else [] |}.

(** A DTD entity whose name contains a colon. *)
Definition colon : Project :=
  {| all_locales := ["en-US"; "fr"];
     ProjectFiles := fun l => [(l ++ "/ui.dtd", "en-US/ui.dtd")];
     path_exists := fun f => true;
     relpath := fun f => f;
     getParser := fun f => Some "dtd";
     parse := fun p f =>
       if f =? "en-US/ui.dtd" then [entity "window:title" "Settings"]
       else [entity "window:title" "Titre"] |}.

(** A Fluent file whose name contains a colon. *)
Definition colon_name : Project :=
  {| all_locales := ["en-US"; "fr"];
     ProjectFiles := fun l => [(l ++ "/new:tab.ftl", "en-US/new:tab.ftl")];
     path_exists := fun f => true;
     relpath := fun f => f;
     getParser := fun f => Some "ftl";
     parse := fun p f =>
       if f =? "en-US/new:tab.ftl" then [entity "title" "New Tab"]
       else [entity "title" "Nouvel onglet"] |}.

End Sample.

(** ** Vocabulary of the further properties *)

(** A pair the loop body reads: both files exist and the format of the
    reference file is known. *)
Definition readable (P : Project) (pair : string * string) : bool :=
  both_exist P pair &&
  match getParser P (snd pair) with Some _ => true | None => false end.

(** The project without the pairs that lines 49-62 skip. *)
Definition only_readable (P : Project) : Project :=
  {| all_locales := all_locales P;
     ProjectFiles := fun locale => filter (readable P) (ProjectFiles P locale);
     path_exists := path_exists P;
     relpath := relpath P;
     getParser := getParser P;
     parse := parse P |}.

(** [(k, v)] is what line 75 inserts for an entity of a localized file
    of [locale]. *)
Definition l10n_entry (P : Project) (locale k v : string) : Prop :=
  exists l10n_file reference_file p entity,
    In locale (all_locales P) /\
    In (l10n_file, reference_file) (ProjectFiles P locale) /\
    readable P (l10n_file, reference_file) = true /\
    getParser P reference_file = Some p /\
    In entity (parse P p l10n_file) /\
    k = full_id (experiment_of (relpath P reference_file)) (key entity) /\
    v = raw_val entity.

(** [(k, v)] is what line 66 inserts for an entity of a reference file. *)
Definition reference_entry (P : Project) (k v : string) : Prop :=
  exists locale l10n_file reference_file p entity,
    In locale (all_locales P) /\
    In (l10n_file, reference_file) (ProjectFiles P locale) /\
    readable P (l10n_file, reference_file) = true /\
    getParser P reference_file = Some p /\
    In entity (parse P p reference_file) /\
    k = full_id (experiment_of (relpath P reference_file)) (key entity) /\
    v = raw_val entity.

(** [c in s] *)
Fixpoint contains (c : ascii) (s : string) : bool :=
  match s with
  | EmptyString => false
  | String a r => Ascii.eqb a c || contains c r
  end.

(** Neither the stem of a reference file that is read nor the key of an
    entity of a file that is read contains a colon. *)
Definition colon_free (P : Project) : Prop :=
  forall locale l10n_file reference_file p,
    In locale (all_locales P) ->
    In (l10n_file, reference_file) (ProjectFiles P locale) ->
    readable P (l10n_file, reference_file) = true ->
    getParser P reference_file = Some p ->
    count_colons (experiment_of (relpath P reference_file)) = 0 /\
    forall entity,
      In entity (parse P p l10n_file) \/ In entity (parse P p reference_file) ->
      count_colons (key entity) = 0.

(** A configuration none of whose files exists. *)
Module MoreSamples.

Definition nothing_on_disk : Project :=
  {| all_locales := ["en-US"; "fr"];
     ProjectFiles := fun l => [(l ++ "/greeting.ftl", "en-US/greeting.ftl")];
     path_exists := fun f => false;
     relpath := fun f => f;
     getParser := fun f => Some "ftl";
     parse := fun p f => [Sample.entity "hello" "Hello"] |}.

(** A reference file in a format no parser knows. *)
Definition unknown_format : Project :=
  {| all_locales := ["en-US"; "fr"];
     ProjectFiles := fun l =>
       [(l ++ "/notes.txt", "en-US/notes.txt");
        (l ++ "/greeting.ftl", "en-US/greeting.ftl")];
     path_exists := fun f => true;
     relpath := fun f => f;
     getParser := fun f => if f =? "en-US/notes.txt" then None else Some "ftl";
     parse := fun p f =>
       if f =? "fr/greeting.ftl" then [Sample.entity "hello" "Bonjour"]
       else [Sample.entity "hello" "Hello"] |}.

(** The scenario of the specification, with no file for [de] at all. *)
Definition german_missing : Project :=
  {| all_locales := all_locales Sample.greeting;
     ProjectFiles := ProjectFiles Sample.greeting;
     path_exists := fun f =>
       negb (prefix "de/" f) && path_exists Sample.greeting f;
     relpath := relpath Sample.greeting;
     getParser := getParser Sample.greeting;
     parse := parse Sample.greeting |}.

(** Two experiments, both fully translated by [fr]. *)
Definition two_experiments : Project :=
  {| all_locales := ["en-US"; "fr"];
     ProjectFiles := fun l =>
       [(l ++ "/greeting.ftl", "en-US/greeting.ftl");
        (l ++ "/farewell.ftl", "en-US/farewell.ftl")];
     path_exists := fun f => true;
     relpath := fun f => f;
     getParser := fun f => Some "ftl";
     parse := fun p f =>
       if f =? "en-US/greeting.ftl" then [Sample.entity "hello" "Hello"]
       else if f =? "fr/greeting.ftl" then [Sample.entity "hello" "Bonjour"]
       else if f =? "en-US/farewell.ftl" then [Sample.entity "bye" "Bye"]
       else if f =? "fr/farewell.ftl" then [Sample.entity "bye" "Au revoir"]
       else [] |}.

End MoreSamples.

(** ** Vocabulary of last-write-wins *)

(** In [log], the last insertion of [k] for [locale] carries [v], and [k]
    had been inserted for the reference locale before it. *)
Definition settled (ref : string) (log : list (string * string * string))
  (locale k v : string) : Prop :=
  exists before after,
    log = (before ++ (locale, k, v) :: after)%list /\
    (forall v', ~ In (locale, k, v') after) /\
    exists v_ref, In (ref, k, v_ref) before.

(** The table holds what the log wrote last: always for the reference
    locale, and for another locale when the key is settled. *)
Definition follows_log (ref : string) (t : Table)
  (log : list (string * string * string)) : Prop :=
  (forall k, lookup t ref k = last_write k (writes_to ref log)) /\
  (forall l k v, l <> ref -> settled ref log l k v -> lookup t l k = Some v).

(** * Properties *)

(** ** Dictionaries *)

Section DictFacts.
Context {V : Type}.
Implicit Types (d : Dict.t V) (k : string) (v : V) (es : list (string * V)).

Lemma get_set_eq k v d : Dict.get k (Dict.set k v d) = Some v.
Proof.
  induction d as [|[k' v'] r IH]; simpl.
  - now rewrite String.eqb_refl.
  - destruct (k' =? k) eqn:E; simpl; now rewrite E.
Qed.

Lemma get_set_neq k k' v d :
  k <> k' -> Dict.get k' (Dict.set k v d) = Dict.get k' d.
Proof.
  intros N. induction d as [|[k0 v0] r IH]; simpl.
  - apply String.eqb_neq in N. now rewrite N.
  - destruct (k0 =? k) eqn:E; simpl.
    + apply String.eqb_eq in E. subst k0.
      apply String.eqb_neq in N. now rewrite N.
    + now rewrite IH.
Qed.

Lemma get_set k k' v d :
  Dict.get k' (Dict.set k v d) = if k =? k' then Some v else Dict.get k' d.
Proof.
  destruct (k =? k') eqn:E.
  - apply String.eqb_eq in E. subst. apply get_set_eq.
  - apply String.eqb_neq in E. now apply get_set_neq.
Qed.

Lemma mem_In_keys k d : Dict.mem k d = true <-> In k (Dict.keys d).
Proof.
  unfold Dict.mem. induction d as [|[k' v'] r IH]; simpl.
  - split; [discriminate | tauto].
  - destruct (k' =? k) eqn:E.
    + apply String.eqb_eq in E. tauto.
    + apply String.eqb_neq in E. rewrite IH. tauto.
Qed.

Lemma get_None_keys k d : Dict.get k d = None <-> ~ In k (Dict.keys d).
Proof.
  rewrite <- mem_In_keys. unfold Dict.mem.
  destruct (Dict.get k d); split; congruence.
Qed.

Lemma In_keys_get k d : In k (Dict.keys d) <-> Dict.get k d <> None.
Proof.
  rewrite <- mem_In_keys. unfold Dict.mem.
  destruct (Dict.get k d); split; congruence.
Qed.

Lemma get_In k v d : Dict.get k d = Some v -> In (k, v) d.
Proof.
  induction d as [|[k' v'] r IH]; simpl; [discriminate|].
  destruct (k' =? k) eqn:E.
  - apply String.eqb_eq in E. intros [= ->]. subst. now left.
  - auto.
Qed.

Lemma In_get k v d : NoDup (Dict.keys d) -> In (k, v) d -> Dict.get k d = Some v.
Proof.
  induction d as [|[k' v'] r IH]; simpl; [tauto|].
  intros ND [E | I].
  - injection E as -> ->. now rewrite String.eqb_refl.
  - inversion ND as [|? ? NI ND']; subst.
    destruct (k' =? k) eqn:E.
    + apply String.eqb_eq in E. subst k'.
      exfalso. apply NI. apply in_map_iff. now exists (k, v).
    + auto.
Qed.

Lemma keys_set k v d :
  Dict.keys (Dict.set k v d) =
  if Dict.mem k d then Dict.keys d else (Dict.keys d ++ [k])%list.
Proof.
  unfold Dict.mem. induction d as [|[k' v'] r IH]; simpl; [reflexivity|].
  destruct (k' =? k) eqn:E; simpl; [reflexivity|].
  rewrite IH. now destruct (Dict.get k r).
Qed.

Lemma In_keys_set k k' v d :
  In k' (Dict.keys (Dict.set k v d)) <-> k' = k \/ In k' (Dict.keys d).
Proof.
  rewrite keys_set. destruct (Dict.mem k d) eqn:M.
  - apply mem_In_keys in M. split; [tauto|]. intros [->|]; auto.
  - rewrite in_app_iff. simpl. intuition.
Qed.

Lemma NoDup_keys_set k v d :
  NoDup (Dict.keys d) -> NoDup (Dict.keys (Dict.set k v d)).
Proof.
  intros ND. rewrite keys_set. destruct (Dict.mem k d) eqn:M; [assumption|].
  apply NoDup_app; [assumption | repeat constructor; simpl; tauto |].
  intros x Ix [<-|[]].
  apply mem_In_keys in Ix. congruence.
Qed.

Lemma set_not_nil k v d : Dict.set k v d <> [].
Proof.
  destruct d as [|[k' v'] r]; simpl; [discriminate|].
  destruct (k' =? k); discriminate.
Qed.

Lemma get_update k d es :
  Dict.get k (Dict.update d es) =
  match last_write k es with Some v => Some v | None => Dict.get k d end.
Proof.
  unfold Dict.update. revert d.
  induction es as [|[k' v'] r IH]; intros d; simpl; [reflexivity|].
  rewrite IH. destruct (last_write k r); [reflexivity|].
  rewrite get_set. now destruct (k' =? k).
Qed.

Lemma NoDup_keys_update d es :
  NoDup (Dict.keys d) -> NoDup (Dict.keys (Dict.update d es)).
Proof.
  unfold Dict.update. revert d.
  induction es as [|[k' v'] r IH]; intros d ND; simpl; [assumption|].
  apply IH. now apply NoDup_keys_set.
Qed.

Lemma last_write_None k es :
  last_write k es = None <-> ~ In k (map fst es).
Proof.
  induction es as [|[k' v'] r IH]; simpl; [tauto|].
  destruct (last_write k r).
  - split; [discriminate|]. intros N. exfalso. apply N. right.
    destruct (in_dec string_dec k (map fst r)) as [I|I]; [assumption|].
    apply IH in I. discriminate.
  - destruct (k' =? k) eqn:E.
    + apply String.eqb_eq in E. split; [discriminate | tauto].
    + apply String.eqb_neq in E. split; [|reflexivity].
      intros _ [?|I]; [congruence|]. now apply IH.
Qed.

Lemma get_filter (f : string -> bool) k d :
  Dict.get k (filter (fun kv => f (fst kv)) d) =
  if f k then Dict.get k d else None.
Proof.
  induction d as [|[k' v'] r IH]; simpl.
  - now destruct (f k).
  - destruct (f k') eqn:F; simpl; destruct (k' =? k) eqn:E;
      try (apply String.eqb_eq in E; subst k'); rewrite ?F; try assumption.
    + reflexivity.
    + rewrite IH, F. reflexivity.
Qed.

Lemma keys_filter (f : string -> bool) d :
  Dict.keys (filter (fun kv => f (fst kv)) d) = filter f (Dict.keys d).
Proof.
  induction d as [|[k' v'] r IH]; simpl; [reflexivity|].
  destruct (f k'); simpl; now rewrite IH.
Qed.

(** On a dictionary, [del] removes the one entry of the key. *)
Lemma del_filter k d :
  NoDup (Dict.keys d) -> In k (Dict.keys d) ->
  Dict.del k d = Ok (filter (fun kv => negb (fst kv =? k)) d).
Proof.
  induction d as [|[k' v'] r IH]; simpl; [tauto|].
  intros ND I. inversion ND as [|? ? NI ND']; subst.
  destruct (k' =? k) eqn:E; simpl.
  - apply String.eqb_eq in E. subst k'. f_equal.
    symmetry. apply forallb_filter_id. apply forallb_forall.
    intros [k0 v0] I0. simpl. apply negb_true_iff, String.eqb_neq.
    intros ->. apply NI. apply in_map_iff. now exists (k, v0).
  - apply String.eqb_neq in E. destruct I as [?|I]; [congruence|].
    now rewrite (IH ND' I).
Qed.

Lemma del_missing k d : ~ In k (Dict.keys d) -> Dict.del k d = Raise KeyError.
Proof.
  induction d as [|[k' v'] r IH]; simpl; [reflexivity|].
  intros N. destruct (k' =? k) eqn:E.
  - apply String.eqb_eq in E. tauto.
  - rewrite IH; tauto.
Qed.
Lemma In_set k k' v v' d :
  In (k', v') (Dict.set k v d) -> In (k', v') d \/ (k', v') = (k, v).
Proof.
  induction d as [|[k0 v0] r IH]; simpl.
  - intros [E|[]]. now right.
  - destruct (k0 =? k) eqn:E; simpl.
    + apply String.eqb_eq in E. subst k0. intros [<-|I]; tauto.
    + intros [<-|I]; [tauto|]. destruct (IH I); tauto.
Qed.
End DictFacts.

(** ** Tables *)

Section TableFacts.
Context {V : Type}.
Implicit Types (t : Dict.t (Dict.t V)) (l k : string) (d : Dict.t V).

Lemma dd_get_set l l' d t :
  dd_get l' (Dict.set l d t) = if l =? l' then d else dd_get l' t.
Proof. unfold dd_get. rewrite get_set. now destruct (l =? l'). Qed.

Lemma get_app_last l l' d t :
  Dict.get l' (t ++ [(l, d)])%list =
  match Dict.get l' t with
  | Some x => Some x
  | None => if l =? l' then Some d else None
  end.
Proof.
  induction t as [|[l0 d0] r IH]; simpl; [reflexivity|].
  now destruct (l0 =? l').
Qed.

Lemma dd_get_touch l l' t : dd_get l' (touch l t) = dd_get l' t.
Proof.
  unfold dd_get, touch. destruct (Dict.mem l t); [reflexivity|].
  rewrite get_app_last. destruct (Dict.get l' t); [reflexivity|].
  now destruct (l =? l').
Qed.

Lemma keys_touch l t :
  Dict.keys (touch l t) =
  if Dict.mem l t then Dict.keys t else (Dict.keys t ++ [l])%list.
Proof.
  unfold touch, Dict.keys. destruct (Dict.mem l t); [reflexivity|].
  now rewrite map_app.
Qed.

Lemma In_keys_touch l l' t :
  In l' (Dict.keys (touch l t)) <-> l' = l \/ In l' (Dict.keys t).
Proof.
  rewrite keys_touch. destruct (Dict.mem l t) eqn:M.
  - apply mem_In_keys in M. split; [tauto|]. intros [->|]; auto.
  - rewrite in_app_iff. simpl. intuition.
Qed.

Lemma NoDup_keys_touch l t :
  NoDup (Dict.keys t) -> NoDup (Dict.keys (touch l t)).
Proof.
  intros ND. rewrite keys_touch. destruct (Dict.mem l t) eqn:M; [assumption|].
  apply NoDup_app; [assumption | repeat constructor; simpl; tauto |].
  intros x Ix [<-|[]]. apply mem_In_keys in Ix. congruence.
Qed.

Lemma In_touch l l' d t :
  In (l', d) (touch l t) -> In (l', d) t \/ d = [].
Proof.
  unfold touch. destruct (Dict.mem l t); [tauto|].
  rewrite in_app_iff. simpl. intros [?|[E|[]]]; [tauto|].
  injection E as _ <-. now right.
Qed.

End TableFacts.

Lemma lookup_table_update l l' k es t :
  lookup (table_update l es t) l' k =
  if l =? l' then
    match last_write k es with Some v => Some v | None => lookup t l k end
  else lookup t l' k.
Proof.
  unfold lookup, table_update. rewrite dd_get_set.
  destruct (l =? l'); [apply get_update | reflexivity].
Qed.

Lemma lookup_touch l l' k (t : Table) : lookup (touch l t) l' k = lookup t l' k.
Proof. unfold lookup. now rewrite dd_get_touch. Qed.

Lemma dd_get_touch_items ref l l' (t : Table) :
  dd_get l'
    match dd_get l (touch l t) with
    | [] => touch l t
    | _ :: _ => touch ref (touch l t)
    end = dd_get l' t.
Proof. destruct (dd_get l (touch l t)); now rewrite !dd_get_touch. Qed.

Lemma lookup_remove_obsolete ref l l' k t :
  lookup (remove_obsolete ref l t) l' k =
  if l =? l' then (if has_key t ref k then lookup t l k else None)
  else lookup t l' k.
Proof.
  unfold remove_obsolete, lookup, has_key. cbv zeta.
  rewrite dd_get_set, !dd_get_touch_items. destruct (l =? l') eqn:E.
  - rewrite (get_filter (fun x => Dict.mem x (dd_get ref t))).
    now rewrite dd_get_touch.
  - reflexivity.
Qed.

Lemma has_key_lookup t l k : has_key t l k = true <-> lookup t l k <> None.
Proof.
  unfold has_key, lookup, Dict.mem.
  destruct (Dict.get k (dd_get l t)); split; congruence.
Qed.

(** Well-formedness is kept by every operation of the extraction pass. *)

Lemma wf_dd_get t l : wf_table t -> NoDup (Dict.keys (dd_get l t)).
Proof.
  intros [_ W]. unfold dd_get. destruct (Dict.get l t) as [d|] eqn:G.
  - apply get_In in G. eauto.
  - constructor.
Qed.

Lemma wf_set l d t :
  wf_table t -> NoDup (Dict.keys d) -> wf_table (Dict.set l d t).
Proof.
  intros [N W] ND. split; [now apply NoDup_keys_set|].
  intros l' d' I. apply In_set in I. destruct I as [I|E]; [eauto|].
  now injection E as -> ->.
Qed.

Lemma wf_touch l t : wf_table t -> wf_table (touch l t).
Proof.
  intros [N W]. split; [now apply NoDup_keys_touch|].
  intros l' d' I. apply In_touch in I. destruct I as [I| ->]; [eauto|constructor].
Qed.

Lemma wf_table_update l es t : wf_table t -> wf_table (table_update l es t).
Proof.
  intros W. apply wf_set; [assumption|].
  apply NoDup_keys_update. now apply wf_dd_get.
Qed.

Lemma wf_remove_obsolete ref l t :
  wf_table t -> wf_table (remove_obsolete ref l t).
Proof.
  intros W. unfold remove_obsolete. cbv zeta.
  assert (W2 : wf_table match dd_get l (touch l t) with
                        | [] => touch l t
                        | _ :: _ => touch ref (touch l t)
                        end).
  { destruct (dd_get l (touch l t)); auto using wf_touch. }
  apply wf_set; [assumption|].
  rewrite (keys_filter (fun x => Dict.mem x _)).
  apply NoDup_filter. apply wf_dd_get. now apply wf_touch.
Qed.

Lemma wf_process_pair P ref l st pair :
  wf_table (translations st) ->
  wf_table (translations (process_pair P ref l st pair)).
Proof.
  intros W. destruct pair as [lf rf]. unfold process_pair.
  destruct (path_exists P lf); simpl; [|assumption].
  destruct (path_exists P rf); simpl; [|assumption].
  destruct (getParser P rf) as [p|]; [|assumption].
  unfold read_l10n, read_reference. simpl.
  apply wf_table_update.
  destruct (Dict.mem _ _); simpl; [assumption|].
  now apply wf_table_update.
Qed.

Lemma wf_fold_pairs P ref l pairs st :
  wf_table (translations st) ->
  wf_table (translations (fold_left (process_pair P ref l) pairs st)).
Proof.
  revert st. induction pairs as [|pr r IH]; intros st W; simpl; [assumption|].
  apply IH. now apply wf_process_pair.
Qed.

Lemma wf_process_locale P ref st l :
  wf_table (translations st) ->
  wf_table (translations (process_locale P ref st l)).
Proof.
  intros W. unfold process_locale. simpl. apply wf_touch.
  destruct (l =? ref); [| apply wf_remove_obsolete];
    now apply wf_fold_pairs.
Qed.

Lemma wf_extractStrings P ref : wf_table (extractStrings P ref).
Proof.
  unfold extractStrings, extract_state.
  assert (W : wf_table (translations initial))
    by (split; [constructor | intros ? ? []]).
  revert W. generalize initial.
  induction (all_locales P) as [|l r IH]; intros st W; simpl; [assumption|].
  apply IH. now apply wf_process_locale.
Qed.

(** ** The extraction pass *)

Section Extraction.
Variable P : Project.
Variable ref : string.

(** What one pass of the inner loop body does to the table, as seen
    through [lookup]. *)
Lemma process_pair_skip L st lf rf :
  path_exists P lf = false \/ path_exists P rf = false ->
  process_pair P ref L st (lf, rf) = st.
Proof.
  intros [E|E]; unfold process_pair; rewrite E; simpl; [reflexivity|].
  now destruct (path_exists P lf).
Qed.

Lemma process_pair_read L st lf rf p :
  path_exists P lf = true -> path_exists P rf = true ->
  getParser P rf = Some p ->
  process_pair P ref L st (lf, rf) =
  read_l10n P L p lf rf (read_reference P ref p rf st).
Proof. intros E1 E2 G. unfold process_pair. now rewrite E1, E2, G. Qed.

(** Either the pair is skipped or it is read. *)
Lemma process_pair_cases L st pr :
  process_pair P ref L st pr = st \/
  exists p, path_exists P (fst pr) = true /\ path_exists P (snd pr) = true /\
            getParser P (snd pr) = Some p /\
            process_pair P ref L st pr =
            read_l10n P L p (fst pr) (snd pr)
              (read_reference P ref p (snd pr) st).
Proof.
  destruct pr as [lf rf]. cbn [fst snd].
  destruct (path_exists P lf) eqn:E1;
    [|left; apply process_pair_skip; now left].
  destruct (path_exists P rf) eqn:E2;
    [|left; apply process_pair_skip; now right].
  destruct (getParser P rf) as [p|] eqn:G.
  - right. exists p. repeat split. now apply process_pair_read.
  - left. unfold process_pair. now rewrite E1, E2, G.
Qed.

Lemma read_reference_mono p rf st l k :
  lookup (translations st) l k <> None ->
  lookup (translations (read_reference P ref p rf st)) l k <> None.
Proof.
  intros N. unfold read_reference.
  destruct (Dict.mem _ _); simpl; [assumption|].
  rewrite lookup_table_update. destruct (ref =? l) eqn:E; [|assumption].
  apply String.eqb_eq in E. subst l.
  destruct (last_write k _); [discriminate | assumption].
Qed.

Lemma read_reference_frame p rf st l k :
  l <> ref ->
  lookup (translations (read_reference P ref p rf st)) l k =
  lookup (translations st) l k.
Proof.
  intros N. unfold read_reference.
  destruct (Dict.mem _ _); simpl; [reflexivity|].
  rewrite lookup_table_update.
  destruct (ref =? l) eqn:E; [|reflexivity].
  apply String.eqb_eq in E. congruence.
Qed.

Lemma read_l10n_mono L p lf rf st l k :
  lookup (translations st) l k <> None ->
  lookup (translations (read_l10n P L p lf rf st)) l k <> None.
Proof.
  intros N. unfold read_l10n. simpl. rewrite lookup_table_update.
  destruct (L =? l) eqn:E; [|assumption].
  apply String.eqb_eq in E. subst l.
  destruct (last_write k _); [discriminate | assumption].
Qed.

Lemma read_l10n_frame L p lf rf st l k :
  l <> L ->
  lookup (translations (read_l10n P L p lf rf st)) l k =
  lookup (translations st) l k.
Proof.
  intros N. unfold read_l10n. simpl. rewrite lookup_table_update.
  destruct (L =? l) eqn:E; [|reflexivity].
  apply String.eqb_eq in E. congruence.
Qed.

(** Reading files only adds keys. *)
Lemma process_pair_mono L st pr l k :
  lookup (translations st) l k <> None ->
  lookup (translations (process_pair P ref L st pr)) l k <> None.
Proof.
  intros N. destruct (process_pair_cases L st pr) as [->|(p & _ & _ & _ & ->)];
    [assumption|].
  now apply read_l10n_mono, read_reference_mono.
Qed.

(** It touches the tables of the visiting and the reference locale only. *)
Lemma process_pair_frame L st pr l k :
  l <> L -> l <> ref ->
  lookup (translations (process_pair P ref L st pr)) l k =
  lookup (translations st) l k.
Proof.
  intros N1 N2.
  destruct (process_pair_cases L st pr) as [->|(p & _ & _ & _ & ->)];
    [reflexivity|].
  rewrite read_l10n_frame by assumption. now apply read_reference_frame.
Qed.

Lemma fold_pairs_mono L pairs st l k :
  lookup (translations st) l k <> None ->
  lookup (translations (fold_left (process_pair P ref L) pairs st)) l k <> None.
Proof.
  revert st. induction pairs as [|pr r IH]; intros st N; simpl; [assumption|].
  apply IH. now apply process_pair_mono.
Qed.

Lemma fold_pairs_frame L pairs st l k :
  l <> L -> l <> ref ->
  lookup (translations (fold_left (process_pair P ref L) pairs st)) l k =
  lookup (translations st) l k.
Proof.
  intros N1 N2. revert st.
  induction pairs as [|pr r IH]; intros st; simpl; [reflexivity|].
  rewrite IH. now apply process_pair_frame.
Qed.

(** The end of an iteration of the outer loop, seen through [lookup]. *)
Lemma lookup_process_locale st L l k :
  lookup (translations (process_locale P ref st L)) l k =
  let st1 := fold_left (process_pair P ref L) (ProjectFiles P L) st in
  if (L =? l) && negb (L =? ref) then
    if has_key (translations st1) ref k
    then lookup (translations st1) L k else None
  else lookup (translations st1) l k.
Proof.
  unfold process_locale. cbv zeta. simpl translations. rewrite lookup_touch.
  destruct (L =? ref) eqn:E; simpl.
  - now rewrite andb_false_r.
  - rewrite andb_true_r. apply lookup_remove_obsolete.
Qed.

(** The reference table only grows. *)
Lemma process_locale_mono_ref st L k :
  lookup (translations st) ref k <> None ->
  lookup (translations (process_locale P ref st L)) ref k <> None.
Proof.
  intros N. rewrite lookup_process_locale. cbv zeta.
  destruct ((L =? ref) && negb (L =? ref)) eqn:E.
  - destruct (L =? ref); discriminate.
  - now apply fold_pairs_mono.
Qed.

(** A key present in both a locale's table and the reference table
    survives every later iteration. *)
Lemma process_locale_keeps st L l k :
  lookup (translations st) l k <> None ->
  lookup (translations st) ref k <> None ->
  lookup (translations (process_locale P ref st L)) l k <> None.
Proof.
  intros N R. rewrite lookup_process_locale. cbv zeta.
  destruct ((L =? l) && negb (L =? ref)) eqn:E.
  - apply andb_true_iff in E. destruct E as [E _].
    apply String.eqb_eq in E. subst l.
    assert (R' := fold_pairs_mono L (ProjectFiles P L) st ref k R).
    apply has_key_lookup in R'. rewrite R'. now apply fold_pairs_mono.
  - now apply fold_pairs_mono.
Qed.

Lemma fold_locales_keeps locales st l k :
  lookup (translations st) l k <> None ->
  lookup (translations st) ref k <> None ->
  lookup (translations (fold_left (process_locale P ref) locales st)) l k
  <> None.
Proof.
  revert st. induction locales as [|L r IH]; intros st N R; simpl;
    [assumption|].
  apply IH; [now apply process_locale_keeps | now apply process_locale_mono_ref].
Qed.

Lemma clean_fold_pairs L pairs st :
  clean_except ref L (translations st) ->
  clean_except ref L (translations (fold_left (process_pair P ref L) pairs st)).
Proof.
  intros C l k N1 N2. rewrite fold_pairs_frame by assumption.
  intros N. apply fold_pairs_mono. now apply (C l k).
Qed.

Lemma clean_process_locale st L :
  clean_except ref ref (translations st) ->
  clean_except ref ref (translations (process_locale P ref st L)).
Proof.
  intros C l k N1 _. rewrite !lookup_process_locale. cbv zeta.
  assert (C' : clean_except ref L (translations st))
    by (intros l' k' ? ? ?; now apply (C l' k')).
  apply (clean_fold_pairs L (ProjectFiles P L)) in C'.
  replace ((L =? ref) && negb (L =? ref)) with false
    by now destruct (L =? ref).
  destruct (L =? l) eqn:E; simpl.
  - apply String.eqb_eq in E. subst l.
    apply String.eqb_neq in N1. rewrite N1. simpl.
    destruct (has_key _ ref k) eqn:M; [|congruence].
    intros _. now apply has_key_lookup.
  - apply String.eqb_neq in E. apply C'; congruence.
Qed.

Lemma clean_extract_state : clean_except ref ref (extractStrings P ref).
Proof.
  unfold extractStrings, extract_state.
  assert (C : clean_except ref ref (translations initial))
    by (intros l k _ _ N; now apply N).
  revert C. generalize initial.
  induction (all_locales P) as [|L r IH]; intros st C; simpl; [assumption|].
  apply IH. now apply clean_process_locale.
Qed.
End Extraction.

(** ** The log of insertions *)

Lemma last_write_app {V : Type} k (a b : list (string * V)) :
  last_write k (a ++ b) =
  match last_write k b with Some v => Some v | None => last_write k a end.
Proof.
  induction a as [|[k' v'] r IH]; simpl.
  - now destruct (last_write k b).
  - rewrite IH. now destruct (last_write k b).
Qed.

Lemma writes_to_app l a b :
  writes_to l (a ++ b) = (writes_to l a ++ writes_to l b)%list.
Proof. apply flat_map_app. Qed.

Lemma writes_to_tag l l' es :
  writes_to l (tag l' es) = if l' =? l then es else [].
Proof.
  unfold writes_to, tag. induction es as [|[k v] r IH]; simpl.
  - now destruct (l' =? l).
  - rewrite IH. now destruct (l' =? l).
Qed.

Lemma log_sound_table_update l es t log :
  log_sound t log -> log_sound (table_update l es t) (log ++ tag l es).
Proof.
  intros S l' k v. rewrite lookup_table_update, writes_to_app, last_write_app.
  rewrite writes_to_tag. destruct (l =? l') eqn:E.
  - apply String.eqb_eq in E. subst l'.
    destruct (last_write k es); [trivial | apply S].
  - simpl. apply S.
Qed.

Lemma log_sound_process_pair P ref L st pr log :
  log_sound (translations st) log ->
  log_sound (translations (process_pair P ref L st pr))
    (log ++ pair_writes P ref L st pr).
Proof.
  intros S. destruct pr as [lf rf]. unfold process_pair, pair_writes.
  destruct (path_exists P lf); simpl; [|now rewrite app_nil_r].
  destruct (path_exists P rf); simpl; [|now rewrite app_nil_r].
  destruct (getParser P rf) as [p|]; [|now rewrite app_nil_r].
  unfold read_l10n, read_reference. rewrite app_assoc.
  destruct (Dict.mem _ _); simpl.
  - rewrite app_nil_r. now apply log_sound_table_update.
  - now apply log_sound_table_update, log_sound_table_update.
Qed.

Lemma log_sound_fold_pairs P ref L pairs st log :
  log_sound (translations st) log ->
  log_sound (translations (fold_left (process_pair P ref L) pairs st))
    (log ++ pairs_writes P ref L pairs st).
Proof.
  revert st log. induction pairs as [|pr r IH]; intros st log S; simpl.
  - now rewrite app_nil_r.
  - rewrite app_assoc. apply IH. now apply log_sound_process_pair.
Qed.

Lemma log_sound_process_locale P ref st L log :
  log_sound (translations st) log ->
  log_sound (translations (process_locale P ref st L))
    (log ++ pairs_writes P ref L (ProjectFiles P L) st).
Proof.
  intros S l k v. rewrite lookup_process_locale. cbv zeta.
  apply (log_sound_fold_pairs P ref L (ProjectFiles P L)) in S.
  destruct ((L =? l) && negb (L =? ref)) eqn:E; [|apply S].
  apply andb_true_iff in E. destruct E as [E _].
  apply String.eqb_eq in E. subst l.
  destruct (has_key _ ref k); [apply S | discriminate].
Qed.

Lemma log_sound_fold_locales P ref locales st log :
  log_sound (translations st) log ->
  log_sound (translations (fold_left (process_locale P ref) locales st))
    (log ++ locales_writes P ref locales st).
Proof.
  revert st log. induction locales as [|L r IH]; intros st log S; simpl.
  - now rewrite app_nil_r.
  - rewrite app_assoc. apply IH. now apply log_sound_process_locale.
Qed.

Lemma log_sound_extractStrings P ref :
  log_sound (extractStrings P ref) (write_log P ref).
Proof.
  unfold extractStrings, extract_state, write_log.
  apply (log_sound_fold_locales P ref (all_locales P) initial []).
  intros l k v. unfold lookup, dd_get. simpl. discriminate.
Qed.

(** ** What the log settles *)

Lemma writes_to_In l k v log : In (l, k, v) log -> In (k, v) (writes_to l log).
Proof.
  intros I. unfold writes_to. apply in_flat_map. exists (l, k, v).
  split; [assumption|]. simpl. rewrite String.eqb_refl. now left.
Qed.

Lemma writes_to_not_In l k log :
  (forall v, ~ In (l, k, v) log) -> last_write k (writes_to l log) = None.
Proof.
  intros N. apply last_write_None. intros I. apply in_map_iff in I.
  destruct I as ([k' v'] & Ek & I). simpl in Ek. subst k'.
  unfold writes_to in I. apply in_flat_map in I.
  destruct I as ([[l0 k0] v0] & I0 & I). simpl in I.
  destruct (l0 =? l) eqn:El; [|destruct I].
  apply String.eqb_eq in El. destruct I as [[= -> ->]|[]]. subst l0.
  now apply (N v').
Qed.

Lemma last_write_of_split l k v before after :
  (forall v', ~ In (l, k, v') after) ->
  last_write k (writes_to l (before ++ (l, k, v) :: after)) = Some v.
Proof.
  intros N. rewrite writes_to_app, last_write_app. simpl.
  rewrite String.eqb_refl. simpl.
  now rewrite (writes_to_not_In l k after N), String.eqb_refl.
Qed.

Lemma settled_last ref log l k v :
  settled ref log l k v -> last_write k (writes_to l log) = Some v.
Proof.
  intros (before & after & -> & N & _). now apply last_write_of_split.
Qed.

Lemma settled_reference ref log l k v :
  settled ref log l k v -> last_write k (writes_to ref log) <> None.
Proof.
  intros (before & after & -> & _ & v_ref & I) E.
  apply last_write_None in E. apply E.
  apply in_map_iff. exists (k, v_ref). split; [reflexivity|].
  apply writes_to_In. apply in_or_app. now left.
Qed.

(** Insertions that do not concern the key leave it settled as before. *)
Lemma settled_app_old ref log new l k v :
  (forall v', ~ In (l, k, v') new) ->
  settled ref (log ++ new) l k v -> settled ref log l k v.
Proof.
  intros N (before & after & E & Na & R).
  apply app_eq_app in E. destruct E as (mid & [[E1 E2]|[E1 E2]]).
  - destruct mid as [|x mid]; simpl in E2.
    + exfalso. apply (N v). rewrite <- E2. now left.
    + injection E2 as <- E2. exists before, mid. split; [assumption|].
      split; [|assumption].
      intros v' I. apply (Na v'). rewrite E2. apply in_or_app. now left.
  - exfalso. apply (N v). rewrite E2. apply in_or_app. right. now left.
Qed.

Lemma In_tagged l l' k v es : In (l', k, v) (tag l es) -> l' = l /\ In (k, v) es.
Proof.
  unfold tag. rewrite in_map_iff. intros ([k0 v0] & [= <- <- <-] & I).
  now split.
Qed.

Lemma follows_log_table_update ref L es t log :
  follows_log ref t log ->
  follows_log ref (table_update L es t) (log ++ tag L es).
Proof.
  intros [R S]. split.
  - intros k. rewrite lookup_table_update, writes_to_app, last_write_app.
    rewrite writes_to_tag. destruct (L =? ref) eqn:E.
    + apply String.eqb_eq in E. subst L.
      destruct (last_write k es); [reflexivity | apply R].
    + simpl. apply R.
  - intros l k v N St. rewrite lookup_table_update.
    destruct (L =? l) eqn:E.
    + apply String.eqb_eq in E. subst l.
      pose proof (settled_last _ _ _ _ _ St) as Lw.
      rewrite writes_to_app, last_write_app, writes_to_tag in Lw.
      rewrite String.eqb_refl in Lw.
      destruct (last_write k es) as [v0|] eqn:Le; [exact Lw|].
      apply (S L k v N). apply (settled_app_old ref log (tag L es)); [|exact St].
      intros v' I. apply In_tagged in I. destruct I as [_ I].
      apply last_write_None in Le. apply Le.
      apply in_map_iff. now exists (k, v').
    + apply String.eqb_neq in E. apply (S l k v N).
      apply (settled_app_old ref log (tag L es)); [|exact St].
      intros v' I. apply In_tagged in I. destruct I as [El _]. congruence.
Qed.

Lemma follows_log_process_pair P ref L st pr log :
  follows_log ref (translations st) log ->
  follows_log ref (translations (process_pair P ref L st pr))
    (log ++ pair_writes P ref L st pr).
Proof.
  intros F. destruct pr as [lf rf]. unfold process_pair, pair_writes.
  destruct (path_exists P lf); simpl; [|now rewrite app_nil_r].
  destruct (path_exists P rf); simpl; [|now rewrite app_nil_r].
  destruct (getParser P rf) as [p|]; [|now rewrite app_nil_r].
  unfold read_l10n, read_reference. rewrite app_assoc.
  destruct (Dict.mem _ _); simpl.
  - rewrite app_nil_r. now apply follows_log_table_update.
  - now apply follows_log_table_update, follows_log_table_update.
Qed.

Lemma follows_log_fold_pairs P ref L pairs st log :
  follows_log ref (translations st) log ->
  follows_log ref (translations (fold_left (process_pair P ref L) pairs st))
    (log ++ pairs_writes P ref L pairs st).
Proof.
  revert st log. induction pairs as [|pr r IH]; intros st log F; simpl.
  - now rewrite app_nil_r.
  - rewrite app_assoc. apply IH. now apply follows_log_process_pair.
Qed.

(** The filter of lines 84-89 keeps what is settled. *)
Lemma follows_log_process_locale P ref st L log :
  follows_log ref (translations st) log ->
  follows_log ref (translations (process_locale P ref st L))
    (log ++ pairs_writes P ref L (ProjectFiles P L) st).
Proof.
  intros F.
  apply (follows_log_fold_pairs P ref L (ProjectFiles P L)) in F.
  destruct F as [R S]. split.
  - intros k. rewrite lookup_process_locale. cbv zeta.
    replace ((L =? ref) && negb (L =? ref)) with false
      by now destruct (L =? ref).
    apply R.
  - intros l k v N St. rewrite lookup_process_locale. cbv zeta.
    destruct ((L =? l) && negb (L =? ref)) eqn:E; [|now apply S].
    apply andb_true_iff in E. destruct E as [E _].
    apply String.eqb_eq in E. subst l.
    pose proof (settled_reference _ _ _ _ _ St) as Rk.
    rewrite <- R in Rk. apply has_key_lookup in Rk. rewrite Rk.
    now apply S.
Qed.

Lemma follows_log_fold_locales P ref locales st log :
  follows_log ref (translations st) log ->
  follows_log ref (translations (fold_left (process_locale P ref) locales st))
    (log ++ locales_writes P ref locales st).
Proof.
  revert st log. induction locales as [|L r IH]; intros st log F; simpl.
  - now rewrite app_nil_r.
  - rewrite app_assoc. apply IH. now apply follows_log_process_locale.
Qed.

Lemma follows_log_extractStrings P ref :
  follows_log ref (extractStrings P ref) (write_log P ref).
Proof.
  unfold extractStrings, extract_state, write_log.
  apply (follows_log_fold_locales P ref (all_locales P) initial []).
  split.
  - intros k. reflexivity.
  - intros l k v _ (before & after & E & _). now destruct before.
Qed.

(** ** Skipped pairs *)

Lemma fold_pairs_without_missing P ref L pairs st :
  fold_left (process_pair P ref L) (filter (both_exist P) pairs) st =
  fold_left (process_pair P ref L) pairs st.
Proof.
  revert st. induction pairs as [|[lf rf] r IH]; intros st;
    cbn [filter fold_left]; [reflexivity|].
  destruct (both_exist P (lf, rf)) eqn:B; cbn [fold_left]; [apply IH|].
  rewrite IH. f_equal. symmetry. apply process_pair_skip.
  unfold both_exist in B. cbn [fst snd] in B.
  apply andb_false_iff in B. exact B.
Qed.

Lemma process_locale_without_missing P ref st L :
  process_locale (without_missing P) ref st L = process_locale P ref st L.
Proof.
  unfold process_locale. cbv zeta.
  change (fold_left (process_pair (without_missing P) ref L)
            (ProjectFiles (without_missing P) L) st)
    with (fold_left (process_pair P ref L)
            (filter (both_exist P) (ProjectFiles P L)) st).
  now rewrite fold_pairs_without_missing.
Qed.

Lemma extractStrings_without_missing P ref :
  extractStrings (without_missing P) ref = extractStrings P ref.
Proof.
  unfold extractStrings, extract_state. f_equal.
  change (all_locales (without_missing P)) with (all_locales P).
  generalize initial.
  induction (all_locales P) as [|L r IH]; intros st; simpl; [reflexivity|].
  now rewrite process_locale_without_missing, IH.
Qed.

(** ** The reference cache *)

Lemma mem_set {V : Type} k k' (v : V) d :
  Dict.mem k' (Dict.set k v d) = true <-> k' = k \/ Dict.mem k' d = true.
Proof. rewrite !mem_In_keys. apply In_keys_set. Qed.

Lemma last_write_entries e k es :
  In k (map key es) -> last_write (full_id e k) (entries e es) <> None.
Proof.
  intros I N. apply last_write_None in N. apply N.
  unfold entries. rewrite map_map. simpl.
  apply in_map_iff in I. destruct I as (x & <- & I).
  apply in_map_iff. now exists x.
Qed.

Lemma In_reference_files P L pr :
  In L (all_locales P) -> In pr (ProjectFiles P L) ->
  In (snd pr) (reference_files P).
Proof.
  intros IL Ip. unfold reference_files. apply in_flat_map.
  exists L. split; [assumption|]. now apply in_map.
Qed.

Section Cache.
Variable P : Project.
Variable ref : string.

Lemma cache_sound_read_reference p rf st :
  In rf (reference_files P) -> getParser P rf = Some p ->
  cache_sound P ref st -> cache_sound P ref (read_reference P ref p rf st).
Proof.
  intros I G C. unfold read_reference.
  destruct (Dict.mem (relpath P rf) (reference_cache st)) eqn:M; [assumption|].
  intros kp. simpl. rewrite mem_set. intros [->|M'].
  - exists rf, p. repeat split; try assumption.
    intros k Ik. rewrite lookup_table_update, String.eqb_refl.
    pose proof (last_write_entries (experiment_of (relpath P rf)) k _ Ik).
    destruct (last_write _ _); congruence.
  - destruct (C kp M') as (rf' & p' & I' & R' & G' & K').
    exists rf', p'. repeat split; try assumption.
    intros k Ik. rewrite lookup_table_update.
    destruct (ref =? ref); [|now apply K'].
    destruct (last_write _ _); [discriminate | now apply K'].
Qed.

Lemma cache_sound_process_pair L st pr :
  In (snd pr) (reference_files P) ->
  cache_sound P ref st -> cache_sound P ref (process_pair P ref L st pr).
Proof.
  intros I C.
  destruct (process_pair_cases P ref L st pr) as [->|(p & _ & _ & G & ->)];
    [assumption|].
  apply (cache_sound_read_reference p (snd pr) st I G) in C.
  intros kp M. destruct (C kp M) as (rf' & p' & I' & R' & G' & K').
  exists rf', p'. repeat split; try assumption.
  intros k Ik. now apply read_l10n_mono, K'.
Qed.

Lemma cache_sound_fold_pairs L pairs st :
  (forall pr, In pr pairs -> In (snd pr) (reference_files P)) ->
  cache_sound P ref st ->
  cache_sound P ref (fold_left (process_pair P ref L) pairs st).
Proof.
  revert st. induction pairs as [|pr r IH]; intros st I C; simpl; [assumption|].
  apply IH; [intros; apply I; now right|].
  apply cache_sound_process_pair; [apply I; now left | assumption].
Qed.

Lemma cache_sound_process_locale st L :
  In L (all_locales P) ->
  cache_sound P ref st -> cache_sound P ref (process_locale P ref st L).
Proof.
  intros I C.
  apply (cache_sound_fold_pairs L (ProjectFiles P L)) in C;
    [|intros pr; now apply In_reference_files].
  intros kp M. destruct (C kp M) as (rf' & p' & I' & R' & G' & K').
  exists rf', p'. repeat split; try assumption.
  intros k Ik. rewrite lookup_process_locale. cbv zeta.
  replace ((L =? ref) && negb (L =? ref)) with false
    by now destruct (L =? ref).
  now apply K'.
Qed.

Lemma cache_sound_fold_locales locales st :
  incl locales (all_locales P) ->
  cache_sound P ref st ->
  cache_sound P ref (fold_left (process_locale P ref) locales st).
Proof.
  revert st. induction locales as [|L r IH]; intros st I C; simpl; [assumption|].
  apply IH; [intros x Ix; apply I; now right|].
  apply cache_sound_process_locale; [apply I; now left | assumption].
Qed.

Lemma cache_sound_initial : cache_sound P ref initial.
Proof. intros kp M. discriminate. Qed.

(** Once [read_reference] has run, the reference table holds every
    composite key of the reference file. *)
Lemma read_reference_present p rf st k :
  relpath_faithful P -> cache_sound P ref st ->
  In rf (reference_files P) -> getParser P rf = Some p ->
  In k (map key (parse P p rf)) ->
  lookup (translations (read_reference P ref p rf st)) ref
    (full_id (experiment_of (relpath P rf)) k) <> None.
Proof.
  intros F C I G Ik. unfold read_reference.
  destruct (Dict.mem (relpath P rf) (reference_cache st)) eqn:M.
  - destruct (C _ M) as (rf' & p' & I' & R' & G' & K').
    assert (rf' = rf) by now apply F. subst rf'.
    assert (p' = p) by congruence. subst p'. now apply K'.
  - simpl. rewrite lookup_table_update, String.eqb_refl.
    pose proof (last_write_entries (experiment_of (relpath P rf)) k _ Ik).
    destruct (last_write _ _); congruence.
Qed.

Lemma read_l10n_present L p lf rf st k :
  In k (map key (parse P p lf)) ->
  lookup (translations (read_l10n P L p lf rf st)) L
    (full_id (experiment_of (relpath P rf)) k) <> None.
Proof.
  intros Ik. unfold read_l10n. simpl.
  rewrite lookup_table_update, String.eqb_refl.
  pose proof (last_write_entries (experiment_of (relpath P rf)) k _ Ik).
  destruct (last_write _ _); congruence.
Qed.
End Cache.

(** ** Composite keys *)

Lemma split_not_nil sep s : split sep s <> [].
Proof.
  destruct s as [|c r]; simpl; [discriminate|].
  destruct (Ascii.eqb c sep); [discriminate|].
  destruct (split sep r); discriminate.
Qed.

Lemma count_colons_app a b :
  count_colons (a ++ b) = count_colons a + count_colons b.
Proof. induction a as [|c r IH]; simpl; [reflexivity|]. rewrite IH. lia. Qed.

Lemma count_colons_full_id e m :
  count_colons (full_id e m) = S (count_colons e + count_colons m).
Proof. unfold full_id. rewrite !count_colons_app. simpl. lia. Qed.

Lemma length_split s : List.length (split ":"%char s) = S (count_colons s).
Proof.
  induction s as [|c r IH]; simpl; [reflexivity|].
  destruct (Ascii.eqb c ":"%char); simpl; [now rewrite IH|].
  pose proof (split_not_nil ":"%char r).
  destruct (split ":"%char r); [congruence | exact IH].
Qed.

Lemma split_no_colon s : count_colons s = 0 -> split ":"%char s = [s].
Proof.
  induction s as [|c r IH]; simpl; [reflexivity|].
  destruct (Ascii.eqb c ":"%char); [discriminate|].
  intros E. now rewrite (IH E).
Qed.

Lemma split_full_id e m :
  count_colons e = 0 ->
  split ":"%char (full_id e m) = e :: split ":"%char m.
Proof.
  unfold full_id. induction e as [|c r IH]; simpl in *; [reflexivity|].
  destruct (Ascii.eqb c ":"%char); [discriminate|].
  intros E. now rewrite (IH E).
Qed.

(** The pieces [split] returns contain no separator and rebuild the
    string. *)
Lemma split_join s :
  String.concat ":" (split ":"%char s) = s /\
  Forall (fun x => count_colons x = 0) (split ":"%char s).
Proof.
  induction s as [|c r [J F]]; simpl.
  - split; [reflexivity | now repeat constructor].
  - destruct (Ascii.eqb c ":"%char) eqn:E.
    + apply Ascii.eqb_eq in E. subst c. split.
      * pose proof (split_not_nil ":"%char r).
        destruct (split ":"%char r) eqn:S; [congruence|].
        simpl in *. now rewrite J.
      * now constructor.
    + pose proof (split_not_nil ":"%char r).
      destruct (split ":"%char r) as [|h t] eqn:S; [congruence|]. split.
      * simpl in *. destruct t; simpl in *; now rewrite <- J.
      * inversion F; subst. constructor; [|assumption].
        simpl. now rewrite E.
Qed.

Lemma unpack_id_Ok k e m :
  unpack_id k = Ok (e, m) ->
  k = full_id e m /\ count_colons e = 0 /\ count_colons m = 0.
Proof.
  unfold unpack_id. destruct (split_join k) as [J F].
  destruct (split ":"%char k) as [|a [|b [|c t]]]; try discriminate.
  intros [= -> ->]. simpl in J.
  inversion F as [|? ? Fe F']; subst. inversion F' as [|? ? Fm _]; subst.
  now repeat split.
Qed.

Lemma unpack_full_id e m :
  count_colons e = 0 -> count_colons m = 0 ->
  unpack_id (full_id e m) = Ok (e, m).
Proof.
  intros Ee Em. unfold unpack_id.
  now rewrite (split_full_id e m Ee), (split_no_colon m Em).
Qed.

(** A composite key with one colon determines its two halves. *)
Lemma full_id_inj e m e0 m0 :
  count_colons e0 = 0 -> count_colons m0 = 0 ->
  full_id e m = full_id e0 m0 -> e = e0 /\ m = m0.
Proof.
  intros E0 M0 E.
  assert (C : count_colons (full_id e m) = 1)
    by (rewrite E, count_colons_full_id; lia).
  rewrite count_colons_full_id in C.
  assert (U : unpack_id (full_id e m) = Ok (e, m))
    by (apply unpack_full_id; lia).
  rewrite E, (unpack_full_id e0 m0 E0 M0) in U.
  now injection U as -> ->.
Qed.

Lemma unpack_id_count k :
  (exists em, unpack_id k = Ok em) <-> count_colons k = 1.
Proof.
  split.
  - intros [[e m] U]. apply unpack_id_Ok in U. destruct U as (-> & Ee & Em).
    rewrite count_colons_full_id. lia.
  - intros C. pose proof (length_split k) as L. rewrite C in L.
    unfold unpack_id.
    destruct (split ":"%char k) as [|a [|b [|c t]]]; try discriminate.
    now exists (a, b).
Qed.

(** ** The inversion loop, lines 96-106 *)

Lemma olookup_add_message l e m v J e' l' m' :
  olookup (add_message l e m v J) e' l' m' =
  if (e =? e') && (l =? l') && (m =? m') then Some v else olookup J e' l' m'.
Proof.
  unfold olookup, add_message. rewrite get_set.
  destruct (e =? e') eqn:Ee; simpl; [|reflexivity].
  apply String.eqb_eq in Ee. subst e'.
  rewrite dd_get_set. destruct (l =? l') eqn:El; simpl.
  - apply String.eqb_eq in El. subst l'. rewrite get_set.
    destruct (m =? m'); [reflexivity|].
    now destruct (Dict.get e J).
  - destruct (Dict.get e J); reflexivity.
Qed.

Lemma wf_record_add l m v d :
  wf_record d \/ d = {| exp_translations := []; complete_locales := [] |} ->
  wf_record
    {| exp_translations :=
         Dict.set l (Dict.set m v (dd_get l (exp_translations d)))
           (exp_translations d);
       complete_locales := complete_locales d |}.
Proof.
  intros W.
  assert (Wt : wf_table (exp_translations d)).
  { destruct W as [[W _]| ->]; [assumption|].
    split; [constructor | intros ? ? []]. }
  assert (Wn : forall l' dl, In (l', dl) (exp_translations d) -> dl <> []).
  { destruct W as [(_ & _ & W & _)| ->]; [assumption | intros ? ? []]. }
  assert (Wc : complete_locales d = []).
  { now destruct W as [(_ & _ & _ & W)| ->]. }
  repeat split; simpl.
  - apply NoDup_keys_set, Wt.
  - intros l' dl I. apply In_set in I. destruct I as [I|E].
    + destruct Wt as [_ Wt]. eauto.
    + injection E as -> ->. apply NoDup_keys_set. now apply wf_dd_get.
  - apply set_not_nil.
  - intros l' dl I. apply In_set in I. destruct I as [I|E]; [eauto|].
    injection E as _ ->. apply set_not_nil.
  - assumption.
Qed.

Lemma wf_output_add_message l e m v J :
  wf_output J -> wf_output (add_message l e m v J).
Proof.
  intros [N W]. unfold add_message. split; [now apply NoDup_keys_set|].
  intros e' d' I. apply In_set in I. destruct I as [I|E]; [eauto|].
  injection E as -> ->. apply wf_record_add.
  destruct (Dict.get e J) as [d|] eqn:G; [|now right].
  left. apply get_In in G. eauto.
Qed.

Lemma add_messages_Ok l J k v J' :
  add_messages l J (k, v) = Ok J' ->
  exists e m, unpack_id k = Ok (e, m) /\ J' = add_message l e m v J.
Proof.
  unfold add_messages. simpl. destruct (unpack_id k) as [[e m]|] eqn:U;
    simpl; [|discriminate].
  intros [= <-]. now exists e, m.
Qed.

Lemma olookup_add_messages l J k v J' e l' m :
  add_messages l J (k, v) = Ok J' ->
  olookup J' e l' m =
  if (l =? l') && (k =? full_id e m) then Some v else olookup J e l' m.
Proof.
  intros A. apply add_messages_Ok in A. destruct A as (e0 & m0 & U & ->).
  apply unpack_id_Ok in U. destruct U as (-> & E0 & M0).
  rewrite olookup_add_message.
  destruct (l =? l'); simpl; rewrite ?andb_false_r; [|reflexivity].
  rewrite andb_true_r.
  destruct (full_id e0 m0 =? full_id e m) eqn:F.
  - apply String.eqb_eq in F. symmetry in F.
    destruct (full_id_inj e m e0 m0 E0 M0 F) as [-> ->].
    now rewrite !String.eqb_refl.
  - apply String.eqb_neq in F.
    destruct (e0 =? e) eqn:Ee; simpl; [|reflexivity].
    destruct (m0 =? m) eqn:Em; [|reflexivity].
    apply String.eqb_eq in Ee, Em. congruence.
Qed.

Lemma foldM_add_messages l msgs J J' :
  foldM (add_messages l) msgs J = Ok J' ->
  (wf_output J -> wf_output J') /\
  (forall kv, In kv msgs -> exists em, unpack_id (fst kv) = Ok em) /\
  forall e l' m,
    olookup J' e l' m =
    if l =? l' then
      match last_write (full_id e m) msgs with
      | Some v => Some v
      | None => olookup J e l' m
      end
    else olookup J e l' m.
Proof.
  revert J. induction msgs as [|[k v] r IH]; intros J; simpl.
  - intros [= <-]. split; [tauto|]. split; [intros ? []|].
    intros e l' m. now destruct (l =? l').
  - destruct (add_messages l J (k, v)) as [J1|] eqn:A; simpl; [|discriminate].
    intros F. destruct (IH J1 F) as (W & U & L).
    split; [|split].
    + intros WJ. apply W. apply add_messages_Ok in A.
      destruct A as (e0 & m0 & _ & ->). now apply wf_output_add_message.
    + intros kv [<-|I]; [|now apply U].
      apply add_messages_Ok in A. destruct A as (e0 & m0 & A & _).
      now exists (e0, m0).
    + intros e l' m. rewrite L, (olookup_add_messages l J k v J1 e l' m A).
      destruct (l =? l'); simpl; [|reflexivity].
      destruct (last_write (full_id e m) r); [reflexivity|].
      now destruct (k =? full_id e m).
Qed.

Lemma invert_fold t J J' :
  foldM (fun json_output lm =>
           foldM (add_messages (fst lm)) (snd lm) json_output) t J = Ok J' ->
  (wf_output J -> wf_output J') /\
  (forall l d kv, In (l, d) t -> In kv d ->
                  exists em, unpack_id (fst kv) = Ok em) /\
  forall e l m,
    olookup J' e l m =
    match table_last t l (full_id e m) with
    | Some v => Some v
    | None => olookup J e l m
    end.
Proof.
  revert J. induction t as [|[l0 d0] r IH]; intros J; simpl.
  - intros [= <-]. split; [tauto|]. split; [intros ? ? ? []|reflexivity].
  - destruct (foldM (add_messages l0) d0 J) as [J1|] eqn:A; simpl;
      [|discriminate].
    intros F. destruct (IH J1 F) as (W & U & L).
    destruct (foldM_add_messages l0 d0 J J1 A) as (W1 & U1 & L1).
    split; [|split].
    + tauto.
    + intros l d kv [E|I] Ik; [|eauto].
      injection E as <- <-. now apply U1.
    + intros e l m. rewrite L, L1.
      destruct (table_last r l (full_id e m)); [reflexivity|].
      destruct (l0 =? l); [|reflexivity].
      now destruct (last_write (full_id e m) d0).
Qed.

Lemma last_write_get {V : Type} k (d : Dict.t V) :
  NoDup (Dict.keys d) -> last_write k d = Dict.get k d.
Proof.
  induction d as [|[k' v'] r IH]; simpl; [reflexivity|].
  intros ND. inversion ND as [|? ? NI ND']; subst. rewrite (IH ND').
  destruct (k' =? k) eqn:E.
  - apply String.eqb_eq in E. subst k'.
    apply get_None_keys in NI. now rewrite NI.
  - now destruct (Dict.get k r).
Qed.

Lemma wf_table_tail l d t : wf_table ((l, d) :: t) -> wf_table t.
Proof.
  intros [N W]. inversion N; subst. split; [assumption|].
  intros l' d' I. apply (W l' d'). now right.
Qed.

Lemma table_last_lookup t l k :
  wf_table t -> table_last t l k = lookup t l k.
Proof.
  induction t as [|[l0 d0] r IH]; intros W; [reflexivity|].
  simpl. rewrite (IH (wf_table_tail _ _ _ W)).
  destruct W as [N W]. inversion N as [|? ? NI N']; subst.
  unfold lookup, dd_get. simpl. destruct (l0 =? l) eqn:E.
  - apply String.eqb_eq in E. subst l0.
    apply get_None_keys in NI. rewrite NI. simpl.
    apply last_write_get. apply (W l d0). now left.
  - now destruct (Dict.get k match Dict.get l r with Some v => v | None => [] end).
Qed.

Lemma wf_output_nil : wf_output [].
Proof. split; [constructor | intros ? ? []]. Qed.

(** What the inversion loop returns, when it returns. *)
Lemma invert_Ok t J :
  wf_table t -> invert t = Ok J ->
  wf_output J /\
  (forall l d kv, In (l, d) t -> In kv d ->
                  exists em, unpack_id (fst kv) = Ok em) /\
  forall e l m, olookup J e l m = lookup t l (full_id e m).
Proof.
  intros W I. destruct (invert_fold t [] J I) as (WJ & U & L).
  split; [apply WJ, wf_output_nil|]. split; [exact U|].
  intros e l m. rewrite L, (table_last_lookup t l _ W).
  now destruct (lookup t l (full_id e m)).
Qed.

(** It raises on a key that does not split in two, and only then. *)
Lemma invert_total t :
  (forall l d kv, In (l, d) t -> In kv d -> count_colons (fst kv) = 1) ->
  exists J, invert t = Ok J.
Proof.
  unfold invert. generalize (@nil (string * ExpData)).
  induction t as [|[l0 d0] r IH]; intros J U; simpl; [now exists J|].
  assert (A : exists J1, foldM (add_messages l0) d0 J = Ok J1).
  { assert (U0 : forall kv, In kv d0 -> count_colons (fst kv) = 1)
      by (intros kv I; apply (U l0 d0 kv); [now left | assumption]).
    clear U IH. revert J.
    induction d0 as [|[k v] r0 IH0]; intros J; simpl; [now exists J|].
    unfold add_messages at 1. simpl.
    destruct (proj2 (unpack_id_count k) (U0 (k, v) (or_introl eq_refl)))
      as [em ->].
    simpl. apply IH0. intros kv I. apply U0. now right. }
  destruct A as [J1 ->]. simpl. apply IH.
  intros l d kv I. apply (U l d kv). now right.
Qed.

(** ** Sets, sorting and deletion *)

Lemma inb_In x l : inb x l = true <-> In x l.
Proof.
  unfold inb. rewrite existsb_exists. split.
  - intros (y & I & E). apply String.eqb_eq in E. now subst.
  - intros I. exists x. split; [assumption | apply String.eqb_refl].
Qed.

Lemma inb_false x l : inb x l = false <-> ~ In x l.
Proof.
  rewrite <- inb_In. destruct (inb x l); split; congruence.
Qed.

Lemma In_set_diff x a b : In x (set_diff a b) <-> In x a /\ ~ In x b.
Proof.
  unfold set_diff. rewrite nodup_In, filter_In, negb_true_iff, inb_false.
  tauto.
Qed.

Lemma NoDup_set_diff a b : NoDup (set_diff a b).
Proof. apply NoDup_nodup. Qed.

Lemma set_diff_empty a b :
  (List.length (set_diff a b) =? 0)%nat = true <-> incl a b.
Proof.
  rewrite Nat.eqb_eq, length_zero_iff_nil. split.
  - intros E x I. destruct (in_dec string_dec x b) as [?|N]; [assumption|].
    assert (I' : In x (set_diff a b)) by now apply In_set_diff.
    rewrite E in I'. destruct I'.
  - intros I. destruct (set_diff a b) as [|x r] eqn:E; [reflexivity|].
    assert (I' : In x (set_diff a b)) by (rewrite E; now left).
    apply In_set_diff in I'. destruct I' as [Ia Nb]. now apply I in Ia.
Qed.

Lemma is_complete_incl tr rids l :
  is_complete tr rids l = true <-> incl rids (Dict.keys (dd_get l tr)).
Proof. apply set_diff_empty. Qed.

Lemma is_complete_touch ref tr rids l :
  is_complete (touch ref tr) rids l = is_complete tr rids l.
Proof. unfold is_complete. now rewrite dd_get_touch. Qed.

Lemma classify_filter tr rids locales complete incomplete :
  classify tr rids locales complete incomplete =
  ((complete ++ filter (is_complete tr rids) locales)%list,
   (incomplete ++ filter (fun l => negb (is_complete tr rids l)) locales)%list).
Proof.
  revert complete incomplete.
  induction locales as [|l r IH]; intros c i; simpl.
  - now rewrite !app_nil_r.
  - fold (is_complete tr rids l). destruct (is_complete tr rids l); simpl;
      rewrite IH, <- app_assoc; reflexivity.
Qed.

Lemma sort_perm l : Permutation l (sort l).
Proof. apply StringSort.Permuted_sort. Qed.

Lemma In_sort x l : In x (sort l) <-> In x l.
Proof.
  split; apply Permutation_in;
    [apply Permutation_sym|]; apply sort_perm.
Qed.

Lemma NoDup_sort l : NoDup l -> NoDup (sort l).
Proof. apply Permutation_NoDup, sort_perm. Qed.

Lemma ascending_sort l : ascending (sort l).
Proof.
  unfold ascending, sort.
  exact (StringSort.Sorted_sort l).
Qed.

Lemma list_eqb_eq a b : list_eqb a b = true <-> a = b.
Proof.
  revert b. induction a as [|x a IH]; intros [|y b]; simpl;
    try (split; [discriminate | congruence]); [tauto|].
  rewrite andb_true_iff, String.eqb_eq, IH. split.
  - now intros [-> ->].
  - intros [= -> ->]. tauto.
Qed.

(** Whatever the hash order, a set lists as [[x]] exactly when it is
    the singleton of [x]. *)
Lemma set_list_singleton (H : HashOrder) l x :
  NoDup l -> list_eqb (set_list H l) [x] = list_eqb l [x].
Proof.
  intros ND. pose proof (set_list_perm H l ND) as Pm.
  destruct (list_eqb l [x]) eqn:E.
  - apply list_eqb_eq in E. subst l. apply list_eqb_eq.
    apply Permutation_length_1_inv. now apply Permutation_sym.
  - destruct (list_eqb (set_list H l) [x]) eqn:E'; [|reflexivity].
    apply list_eqb_eq in E'. rewrite E' in Pm.
    apply Permutation_length_1_inv in Pm. subst l.
    simpl in E. now rewrite String.eqb_refl in E.
Qed.

Lemma filter_filter {A : Type} (f g : A -> bool) l :
  filter f (filter g l) = filter (fun x => g x && f x) l.
Proof.
  induction l as [|x r IH]; simpl; [reflexivity|].
  destruct (g x); simpl; [destruct (f x)|]; now rewrite IH.
Qed.

(** Deleting distinct existing keys never raises and filters them out. *)
Lemma foldM_del {V : Type} ks (d : Dict.t V) :
  NoDup (Dict.keys d) -> NoDup ks -> incl ks (Dict.keys d) ->
  foldM (fun d k => Dict.del k d) ks d =
  Ok (filter (fun kv => negb (inb (fst kv) ks)) d).
Proof.
  revert d. induction ks as [|k r IH]; intros d Nd Nk I; simpl.
  - f_equal. symmetry. apply forallb_filter_id. now apply forallb_forall.
  - inversion Nk as [|? ? NI Nr]; subst.
    rewrite del_filter; [|assumption | apply I; now left]. simpl.
    rewrite IH.
    + f_equal. rewrite filter_filter. apply filter_ext.
      intros [k' v']. simpl. rewrite negb_orb. reflexivity.
    + rewrite (keys_filter (fun x => negb (x =? k))). now apply NoDup_filter.
    + assumption.
    + intros x Ix. rewrite (keys_filter (fun x => negb (x =? k))).
      apply filter_In. split; [apply I; now right|].
      apply negb_true_iff, String.eqb_neq. congruence.
Qed.

(** ** The filtering loop, lines 110-136 *)

(** On a record with unique locales the loop body raises nothing, and its
    verdict does not depend on the hash order. *)
Lemma filter_experiment_Ok H ref d :
  NoDup (Dict.keys (exp_translations d)) ->
  filter_experiment H ref d = Ok (filtered ref d, only_reference ref d).
Proof.
  intros ND. unfold filter_experiment. cbv zeta.
  rewrite classify_filter. cbv beta iota. cbn [app].
  rewrite (filter_ext
             (is_complete (touch ref (exp_translations d))
                (Dict.keys (dd_get ref (touch ref (exp_translations d)))))
             (completeb ref d)); cycle 1.
  { intros l. unfold completeb. now rewrite is_complete_touch, dd_get_touch. }
  rewrite (filter_ext
             (fun l => negb (is_complete (touch ref (exp_translations d))
                               (Dict.keys (dd_get ref (touch ref (exp_translations d))))
                               l))
             (fun l => negb (completeb ref d l))); cycle 1.
  { intros l. unfold completeb. now rewrite is_complete_touch, dd_get_touch. }
  fold (incomplete_locales ref d).
  rewrite foldM_del.
  - cbn [bind]. unfold filtered, only_reference.
    now rewrite set_list_singleton by apply NoDup_set_diff.
  - now apply NoDup_keys_touch.
  - apply NoDup_filter. now apply NoDup_sort.
  - intros x I. apply filter_In in I. destruct I as [I _].
    apply (proj1 (In_sort _ _)) in I.
    apply (proj2 (In_keys_touch _ _ _)). now right.
Qed.

Lemma filter_experiments_Ok H ref J :
  (forall e d, In (e, d) J -> NoDup (Dict.keys (exp_translations d))) ->
  filter_experiments H ref J =
  Ok (map (fun ed => (fst ed, filtered ref (snd ed))) J,
      map fst (filter (fun ed => only_reference ref (snd ed)) J)).
Proof.
  induction J as [|[e d] r IH]; intros W; simpl; [reflexivity|].
  rewrite (filter_experiment_Ok H ref d) by (apply (W e d); now left).
  simpl. rewrite IH by (intros e' d' I; apply (W e' d'); now right).
  simpl. now destruct (only_reference ref d).
Qed.

Lemma keys_map_snd {A B : Type} (f : A -> B) (J : Dict.t A) :
  Dict.keys (map (fun ed => (fst ed, f (snd ed))) J) = Dict.keys J.
Proof.
  unfold Dict.keys. rewrite map_map. simpl. reflexivity.
Qed.

Lemma get_map_snd {A B : Type} (f : A -> B) k (J : Dict.t A) :
  Dict.get k (map (fun ed => (fst ed, f (snd ed))) J) =
  option_map f (Dict.get k J).
Proof.
  induction J as [|[k' v'] r IH]; simpl; [reflexivity|].
  now destruct (k' =? k).
Qed.

Lemma In_partial ref J e :
  NoDup (Dict.keys J) ->
  In e (map fst (filter (fun ed => only_reference ref (snd ed)) J)) <->
  exists d, Dict.get e J = Some d /\ only_reference ref d = true.
Proof.
  intros ND. rewrite in_map_iff. split.
  - intros ([e' d] & <- & I). apply filter_In in I. destruct I as [I O].
    exists d. split; [now apply In_get | exact O].
  - intros (d & G & O). exists (e, d). split; [reflexivity|].
    apply filter_In. split; [now apply get_In | exact O].
Qed.

Lemma NoDup_map_fst_filter {A : Type} (f : string * A -> bool) (J : Dict.t A) :
  NoDup (Dict.keys J) -> NoDup (map fst (filter f J)).
Proof.
  induction J as [|[k v] r IH]; simpl; [constructor|].
  intros ND. inversion ND as [|? ? NI ND']; subst.
  destruct (f (k, v)); simpl; [|auto].
  constructor; [|auto].
  intros I. apply NI. apply in_map_iff in I. destruct I as (x & <- & I).
  apply filter_In in I. apply in_map. tauto.
Qed.

(** The reshape-and-filter pass after a successful inversion: no
    [KeyError], and the output holds the filtered records of the
    experiments that are not left to the reference locale alone. *)
Lemma getTranslations_Ok H ref t J :
  invert t = Ok J -> wf_output J ->
  exists out,
    getTranslations H ref t = Ok out /\
    NoDup (Dict.keys out) /\
    forall e d',
      Dict.get e out = Some d' <->
      exists d, Dict.get e J = Some d /\ only_reference ref d = false /\
                d' = filtered ref d.
Proof.
  intros I [ND W]. unfold getTranslations. rewrite I. simpl.
  rewrite filter_experiments_Ok; cycle 1.
  { intros e d Ie. destruct (W e d Ie) as [[N _] _]. exact N. }
  simpl. rewrite foldM_del; cycle 1.
  { now rewrite keys_map_snd. }
  { now apply NoDup_map_fst_filter. }
  { intros e Ie. rewrite keys_map_snd. apply in_map_iff in Ie.
    destruct Ie as (x & <- & Ix). apply filter_In in Ix. apply in_map. tauto. }
  eexists. split; [reflexivity|]. split.
  { rewrite (keys_filter (fun e => negb (inb e _))).
    apply NoDup_filter. now rewrite keys_map_snd. }
  intros e d'.
  rewrite (get_filter (fun e => negb (inb e _))), get_map_snd.
  destruct (inb e _) eqn:B; simpl.
  - apply inb_In, In_partial in B; [|assumption].
    destruct B as (d & G & O). split; [discriminate|].
    intros (d0 & G0 & O0 & _). congruence.
  - apply inb_false in B. rewrite In_partial in B by assumption.
    destruct (Dict.get e J) as [d|] eqn:G; simpl.
    + split.
      * intros [= <-]. exists d. repeat split.
        destruct (only_reference ref d) eqn:O; [|reflexivity].
        exfalso. apply B. now exists d.
      * intros (d0 & [= <-] & _ & ->). reflexivity.
    + split; [discriminate|]. intros (d0 & G0 & _). discriminate.
Qed.

(** ** Records of a table that extraction produced *)

Lemma NoDup_singleton {A : Type} (a : A) l :
  NoDup l -> (l = [a] <-> forall x, In x l <-> x = a).
Proof.
  intros ND. split.
  - intros -> x. simpl. intuition.
  - intros E. destruct l as [|b r].
    + exfalso. now apply (E a).
    + assert (b = a) by (apply E; now left). subst b.
      destruct r as [|c r]; [reflexivity|].
      assert (c = a) by (apply E; right; now left). subst c.
      inversion ND as [|? ? NI _]. exfalso. apply NI. now left.
Qed.

Lemma In_incomplete_locales ref d x :
  In x (incomplete_locales ref d) <->
  In x (Dict.keys (exp_translations d)) /\ completeb ref d x = false.
Proof.
  unfold incomplete_locales. now rewrite filter_In, In_sort, negb_true_iff.
Qed.

Lemma In_complete_set ref d x :
  In x (set_diff (sort (Dict.keys (exp_translations d)))
          (incomplete_locales ref d)) <->
  In x (Dict.keys (exp_translations d)) /\ completeb ref d x = true.
Proof.
  rewrite In_set_diff, In_sort, In_incomplete_locales.
  destruct (completeb ref d x); intuition congruence.
Qed.

Lemma only_reference_true ref d :
  only_reference ref d = true <->
  forall x, In x (Dict.keys (exp_translations d)) /\ completeb ref d x = true
            <-> x = ref.
Proof.
  unfold only_reference.
  rewrite list_eqb_eq, (NoDup_singleton ref _ (NoDup_set_diff _ _)).
  split; intros E x; [rewrite <- In_complete_set | rewrite In_complete_set];
    apply E.
Qed.

Lemma In_complete_locales_filtered ref d x :
  complete_locales d = [] ->
  In x (complete_locales (filtered ref d)) <->
  In x (Dict.keys (exp_translations d)) /\ completeb ref d x = true.
Proof.
  intros E. unfold filtered. simpl. rewrite E. cbn [app].
  now rewrite In_sort, filter_In, In_sort.
Qed.

(** The reference locale is complete for itself. *)
Lemma completeb_ref ref d : completeb ref d ref = true.
Proof. apply is_complete_incl. apply incl_refl. Qed.

(** A locale other than the reference one that is complete, found by
    search when the reference locale is not the only complete one. *)
Lemma only_reference_false ref d :
  In ref (Dict.keys (exp_translations d)) ->
  only_reference ref d = false <->
  exists x, x <> ref /\ In x (Dict.keys (exp_translations d)) /\
            completeb ref d x = true.
Proof.
  intros R. split.
  - intros O.
    set (cl := set_diff (sort (Dict.keys (exp_translations d)))
                 (incomplete_locales ref d)).
    destruct (existsb (fun x => negb (x =? ref)) cl) eqn:X.
    + apply existsb_exists in X. destruct X as (x & I & N).
      apply negb_true_iff, String.eqb_neq in N.
      apply In_complete_set in I. now exists x.
    + exfalso. assert (T : only_reference ref d = true); [|congruence].
      apply only_reference_true. intros x. split.
      * intros I. apply In_complete_set in I. fold cl in I.
        destruct (string_dec x ref) as [|N]; [assumption|].
        assert (X' : existsb (fun x => negb (x =? ref)) cl = true);
          [|congruence].
        apply existsb_exists. exists x. split; [assumption|].
        now apply negb_true_iff, String.eqb_neq.
      * intros ->. split; [assumption | apply completeb_ref].
  - intros (x & N & I & C).
    destruct (only_reference ref d) eqn:O; [|reflexivity].
    exfalso. apply N. now apply (proj1 (only_reference_true ref d) O x).
Qed.

Section Run.
Variable H : HashOrder.
Variable P : Project.
Variable ref : string.
Variable out : Output.
Hypothesis run_Ok : run H P ref = Ok out.

Local Abbreviation T := (extractStrings P ref).

Lemma run_invert : exists J, invert T = Ok J.
Proof.
  unfold run, getTranslations in run_Ok.
  destruct (invert T) as [J|]; [now exists J | discriminate].
Qed.

(** Every composite key of the table splits in two. *)
Lemma run_unpack l d kv :
  In (l, d) T -> In kv d -> exists em, unpack_id (fst kv) = Ok em.
Proof.
  destruct run_invert as [J I].
  destruct (invert_Ok T J (wf_extractStrings P ref) I) as (_ & U & _).
  apply U.
Qed.

Lemma In_message_ids l e m :
  In m (message_ids T l e) <-> lookup T l (full_id e m) <> None.
Proof.
  unfold message_ids, lookup. rewrite in_flat_map. split.
  - intros ([k v] & I & Im). simpl in Im.
    destruct (unpack_id k) as [[e' m']|] eqn:U; [|destruct Im].
    destruct (e' =? e) eqn:E; [|destruct Im].
    destruct Im as [<-|[]]. apply String.eqb_eq in E. subst e'.
    apply unpack_id_Ok in U. destruct U as (-> & _).
    apply In_keys_get. apply in_map_iff. now exists (full_id e m', v).
  - intros N. destruct (Dict.get (full_id e m) (dd_get l T)) as [v|] eqn:G;
      [|congruence].
    apply get_In in G. exists (full_id e m, v). split; [assumption|]. simpl.
    assert (U : exists em, unpack_id (full_id e m) = Ok em).
    { unfold dd_get in G. destruct (Dict.get l T) as [d|] eqn:GT; [|destruct G].
      apply get_In in GT. apply (run_unpack l d (full_id e m, v) GT G). }
    destruct U as [[e0 m0] U]. rewrite U.
    apply unpack_id_Ok in U. destruct U as (F & E0 & M0).
    destruct (full_id_inj e m e0 m0 E0 M0 F) as [-> ->].
    rewrite String.eqb_refl. now left.
Qed.

Variable J : Output.
Hypothesis invert_J : invert T = Ok J.

Lemma olookup_T e l m : olookup J e l m = lookup T l (full_id e m).
Proof.
  destruct (invert_Ok T J (wf_extractStrings P ref) invert_J) as (_ & _ & L).
  apply L.
Qed.

Lemma wf_J : wf_output J.
Proof.
  now destruct (invert_Ok T J (wf_extractStrings P ref) invert_J) as (W & _).
Qed.

Lemma record_wf e d : Dict.get e J = Some d -> wf_record d.
Proof.
  intros G. apply get_In in G. destruct wf_J as [_ W]. eauto.
Qed.

Lemma olookup_record e d l m :
  Dict.get e J = Some d ->
  Dict.get m (dd_get l (exp_translations d)) = lookup T l (full_id e m).
Proof.
  intros G. rewrite <- olookup_T. unfold olookup. now rewrite G.
Qed.

Lemma In_message_keys e d l m :
  Dict.get e J = Some d ->
  In m (Dict.keys (dd_get l (exp_translations d))) <->
  In m (message_ids T l e).
Proof.
  intros G. now rewrite In_keys_get, In_message_ids, (olookup_record e d l m G).
Qed.

Lemma In_locale_keys e d l :
  Dict.get e J = Some d ->
  In l (Dict.keys (exp_translations d)) <-> message_ids T l e <> [].
Proof.
  intros G. destruct (record_wf e d G) as (_ & _ & Wn & _). split.
  - intros I. apply In_keys_get in I.
    destruct (Dict.get l (exp_translations d)) as [dl|] eqn:Gl; [|congruence].
    assert (Nn : dl <> []) by (apply get_In in Gl; eauto).
    destruct dl as [|[m v] r]; [congruence|].
    assert (Im : In m (message_ids T l e)).
    { apply (In_message_keys e d l m G). unfold dd_get. rewrite Gl. now left. }
    intros E. rewrite E in Im. destruct Im.
  - intros N. destruct (message_ids T l e) as [|m r] eqn:E; [congruence|].
    assert (Im : In m (Dict.keys (dd_get l (exp_translations d)))).
    { apply (In_message_keys e d l m G). rewrite E. now left. }
    apply In_keys_get. unfold dd_get in Im.
    destruct (Dict.get l (exp_translations d)); [discriminate | destruct Im].
Qed.

Lemma completeb_complete e d l :
  Dict.get e J = Some d ->
  completeb ref d l = true <-> complete T ref e l.
Proof.
  intros G. unfold completeb, complete. rewrite is_complete_incl.
  split; intros I m Im.
  - apply (In_message_keys e d l m G), I, (In_message_keys e d ref m G), Im.
  - apply (In_message_keys e d l m G), I, (In_message_keys e d ref m G), Im.
Qed.

(** Whoever has an entry for an experiment, the reference locale has it
    too: obsolete entries are gone. *)
Lemma ref_in_record e d :
  Dict.get e J = Some d -> In ref (Dict.keys (exp_translations d)).
Proof.
  intros G. destruct (record_wf e d G) as (_ & Ne & Wn & _).
  destruct (exp_translations d) as [|[l dl] r] eqn:E; [congruence|].
  assert (Nn : dl <> []) by (apply (Wn l dl); now left).
  destruct dl as [|[m v] rl]; [congruence|].
  assert (L : lookup T l (full_id e m) = Some v).
  { rewrite <- (olookup_record e d l m G), E. unfold dd_get. simpl.
    rewrite String.eqb_refl. simpl. now rewrite String.eqb_refl. }
  assert (R : lookup T ref (full_id e m) <> None).
  { destruct (string_dec l ref) as [->|N]; [congruence|].
    apply (clean_extract_state P ref l (full_id e m) N N). congruence. }
  rewrite <- E. apply (In_locale_keys e d ref G).
  apply In_message_ids in R. intros E'. rewrite E' in R. destruct R.
Qed.

Lemma complete_in_keys e d l :
  Dict.get e J = Some d -> complete T ref e l ->
  In l (Dict.keys (exp_translations d)).
Proof.
  intros G C. apply (In_locale_keys e d l G).
  pose proof (proj1 (In_locale_keys e d ref G) (ref_in_record e d G)) as N.
  destruct (message_ids T ref e) as [|m r] eqn:E; [congruence|].
  assert (Im : In m (message_ids T l e)) by (apply C; rewrite E; now left).
  intros E'. rewrite E' in Im. destruct Im.
Qed.

Lemma In_experiments e : In e (experiments T) <-> In e (Dict.keys J).
Proof.
  unfold experiments. rewrite in_flat_map. split.
  - intros ([l d] & It & Ie). apply in_flat_map in Ie.
    destruct Ie as ([k v] & Ik & Ie). simpl in *.
    destruct (unpack_id k) as [[e' m]|] eqn:U; [|destruct Ie].
    destruct Ie as [->|[]]. apply unpack_id_Ok in U. destruct U as (-> & _).
    assert (L : lookup T l (full_id e m) = Some v).
    { unfold lookup, dd_get.
      destruct (wf_extractStrings P ref) as [N W].
      rewrite (In_get l d _ N It). apply In_get; [eauto | assumption]. }
    rewrite <- olookup_T in L. unfold olookup in L.
    apply In_keys_get. destruct (Dict.get e J); congruence.
  - intros I. apply In_keys_get in I.
    destruct (Dict.get e J) as [d|] eqn:G; [|congruence].
    pose proof (proj1 (In_locale_keys e d ref G) (ref_in_record e d G)) as N.
    destruct (message_ids T ref e) as [|m r] eqn:E; [congruence|].
    assert (Im : In m (message_ids T ref e)) by (rewrite E; now left).
    apply In_message_ids in Im. unfold lookup in Im.
    destruct (Dict.get (full_id e m) (dd_get ref T)) as [v|] eqn:Gm;
      [|congruence].
    apply get_In in Gm. unfold dd_get in Gm.
    destruct (Dict.get ref T) as [dr|] eqn:Gr; [|destruct Gm].
    apply get_In in Gr. exists (ref, dr). split; [assumption|].
    apply in_flat_map. exists (full_id e m, v). split; [assumption|]. simpl.
    destruct (run_unpack ref dr (full_id e m, v) Gr Gm) as [[e0 m0] U].
    simpl in U. rewrite U. apply unpack_id_Ok in U.
    destruct U as (F & E0 & M0).
    destruct (full_id_inj e m e0 m0 E0 M0 F) as [-> _]. now left.
Qed.

(** The output of the run, record by record. *)
Lemma run_output :
  NoDup (Dict.keys out) /\
  forall e d',
    Dict.get e out = Some d' <->
    exists d, Dict.get e J = Some d /\ only_reference ref d = false /\
              d' = filtered ref d.
Proof.
  destruct (getTranslations_Ok H ref T J invert_J wf_J) as (out' & E & N & S).
  unfold run in run_Ok. rewrite E in run_Ok. injection run_Ok as <-.
  now split.
Qed.
End Run.

(** * The scenarios of the specification *)

Import Sample.

Example experiment_of_reference_path :
  experiment_of "en-US/subdir/greeting.ftl" = "greeting" /\
  experiment_of "en-US/a/greeting.ftl" = experiment_of "en-US/b/greeting.ftl".
Proof. split; reflexivity. Qed.

(** [fr] is complete for [greeting], [de] is not; [solo] has the
    reference locale only and is dropped. *)
Example greeting_table :
  extractStrings greeting "en-US" =
  [("en-US",
    [("greeting:hello", "Hello"); ("greeting:bye", "Bye"); ("solo:a", "A")]);
   ("de", [("greeting:hello", "Hallo")]);
   ("fr", [("greeting:hello", "Bonjour"); ("greeting:bye", "Au revoir")])].
Proof. reflexivity. Qed.

Example greeting_run :
  run insertion_order greeting "en-US" = Ok greeting_output /\
  run reverse_order greeting "en-US" = Ok greeting_output.
Proof. split; reflexivity. Qed.

Example greeting_files :
  main (fun _ => "{}") insertion_order greeting "en-US" "dest" =
  Ok [("dest/greeting.json", "{}")].
Proof. reflexivity. Qed.

(** Two files with the same experiment id: the later one wins. *)
Example collision_table :
  extractStrings collision "en-US" =
  [("en-US", [("greeting:hello", "Hi")]);
   ("fr", [("greeting:hello", "Salut")])].
Proof. reflexivity. Qed.

(** * The claims *)

(** C1. For every experiment of the mapping [getTranslations] returns,
    [complete_locales] is in ascending lexicographic order, and a locale
    is listed there exactly when its message ids for the experiment
    include all the message ids the reference locale has for it. *)
Theorem complete_locales_sorted_exact H P ref out e d :
  run H P ref = Ok out ->
  Dict.get e out = Some d ->
  ascending (complete_locales d) /\
  forall l, In l (complete_locales d) <->
            complete (extractStrings P ref) ref e l.
Proof.
  intros R G. destruct (run_invert H P ref out R) as [J I].
  destruct (run_output H P ref out R J I) as [_ S].
  apply S in G. destruct G as (d0 & G0 & _ & ->). split.
  - unfold filtered. simpl. apply ascending_sort.
  - intros l. destruct (record_wf P ref J I e d0 G0) as (_ & _ & _ & C).
    rewrite (In_complete_locales_filtered ref d0 l C).
    rewrite (completeb_complete H P ref out R J I e d0 l G0). split; [tauto|].
    intros Cl. split; [|assumption].
    exact (complete_in_keys H P ref out R J I e d0 l G0 Cl).
Qed.

Lemma complete_locales_sorted_exact_witness :
  ascending (complete_locales greeting_record) /\
  forall l, In l (complete_locales greeting_record) <->
            complete (extractStrings greeting "en-US") "en-US" "greeting" l.
Proof.
  apply (complete_locales_sorted_exact insertion_order greeting "en-US"
           greeting_output "greeting" greeting_record);
    vm_compute; reflexivity.
Defined.

(** C2. The experiments of the mapping [getTranslations] returns are
    the experiments of the table for which some locale other than the
    reference one is complete; no experiment of the output has the
    reference locale as its only complete locale. *)
Theorem experiment_kept_iff H P ref out :
  run H P ref = Ok out ->
  (forall e,
      In e (Dict.keys out) <->
      In e (experiments (extractStrings P ref)) /\
      exists l, l <> ref /\ complete (extractStrings P ref) ref e l) /\
  (forall e d, Dict.get e out = Some d -> complete_locales d <> [ref]).
Proof.
  intros R. destruct (run_invert H P ref out R) as [J I].
  destruct (run_output H P ref out R J I) as [_ S]. split.
  - intros e. rewrite (In_experiments H P ref out R J I e), !In_keys_get.
    split.
    + intros N. destruct (Dict.get e out) as [d|] eqn:G; [|congruence].
      apply S in G. destruct G as (d0 & G0 & O & _).
      split; [congruence|].
      pose proof (ref_in_record H P ref out R J I e d0 G0) as Rk.
      apply (only_reference_false ref d0 Rk) in O.
      destruct O as (x & Nx & _ & Cx). exists x. split; [assumption|].
      now apply (completeb_complete H P ref out R J I e d0 x G0).
    + intros (Ie & l & Nl & Cl).
      destruct (Dict.get e J) as [d0|] eqn:G0; [|congruence]. clear Ie.
      pose proof (ref_in_record H P ref out R J I e d0 G0) as Rk.
      assert (O : only_reference ref d0 = false).
      { apply (only_reference_false ref d0 Rk). exists l.
        split; [assumption|]. split.
        - exact (complete_in_keys H P ref out R J I e d0 l G0 Cl).
        - now apply (completeb_complete H P ref out R J I e d0 l G0). }
      assert (G : Dict.get e out = Some (filtered ref d0))
        by (apply S; now exists d0).
      congruence.
  - intros e d G E. apply S in G. destruct G as (d0 & G0 & O & ->).
    destruct (record_wf P ref J I e d0 G0) as (_ & _ & _ & C).
    assert (T : only_reference ref d0 = true); [|congruence].
    apply only_reference_true. intros x.
    rewrite <- (In_complete_locales_filtered ref d0 x C), E.
    simpl. intuition.
Qed.

Lemma experiment_kept_iff_witness :
  (forall e,
      In e (Dict.keys greeting_output) <->
      In e (experiments (extractStrings greeting "en-US")) /\
      exists l, l <> "en-US" /\
                complete (extractStrings greeting "en-US") "en-US" e l) /\
  (forall e d, Dict.get e greeting_output = Some d ->
               complete_locales d <> ["en-US"]).
Proof.
  apply (experiment_kept_iff insertion_order greeting "en-US" greeting_output).
  vm_compute. reflexivity.
Defined.

(** C3. After [extractStrings], every composite key left in the table of
    a locale other than the reference one is a key of the reference
    locale's table. *)
Theorem obsolete_keys_removed P ref locale k :
  locale <> ref ->
  has_key (extractStrings P ref) locale k = true ->
  has_key (extractStrings P ref) ref k = true.
Proof.
  intros N. rewrite !has_key_lookup.
  exact (clean_extract_state P ref locale k N N).
Qed.

Lemma obsolete_keys_removed_witness :
  has_key (extractStrings greeting "en-US") "en-US" "greeting:bye" = true.
Proof.
  apply (obsolete_keys_removed greeting "en-US" "fr" "greeting:bye").
  - discriminate.
  - vm_compute. reflexivity.
Defined.

(** C5. For every experiment of the mapping [getTranslations] returns,
    the record holds the reference locale with the entries the reference
    table has for the experiment, and lists it as complete. *)
Theorem reference_entries_present H P ref out e d :
  run H P ref = Ok out ->
  Dict.get e out = Some d ->
  exists entries_ref,
    Dict.get ref (exp_translations d) = Some entries_ref /\
    entries_ref <> [] /\
    (forall m, Dict.get m entries_ref =
               lookup (extractStrings P ref) ref (full_id e m)) /\
    In ref (complete_locales d).
Proof.
  intros R G. destruct (run_invert H P ref out R) as [J I].
  destruct (run_output H P ref out R J I) as [_ S].
  apply S in G. destruct G as (d0 & G0 & _ & ->).
  pose proof (ref_in_record H P ref out R J I e d0 G0) as Rk.
  destruct (record_wf P ref J I e d0 G0) as (_ & _ & Wn & C).
  pose proof Rk as Gr. apply In_keys_get in Gr.
  destruct (Dict.get ref (exp_translations d0)) as [dr|] eqn:E; [|congruence].
  exists dr. repeat split.
  - unfold filtered. simpl.
    rewrite (get_filter (fun x => negb (inb x (incomplete_locales ref d0)))).
    assert (B : inb ref (incomplete_locales ref d0) = false).
    { apply inb_false. rewrite In_incomplete_locales, completeb_ref.
      intros [_ F]. discriminate. }
    rewrite B. simpl. unfold touch.
    apply mem_In_keys in Rk. now rewrite Rk.
  - apply get_In in E. eauto.
  - intros m. rewrite <- (olookup_record P ref J I e d0 ref m G0).
    unfold dd_get. now rewrite E.
  - apply (In_complete_locales_filtered ref d0 ref C).
    split; [assumption | apply completeb_ref].
Qed.

Lemma reference_entries_present_witness :
  exists entries_ref,
    Dict.get "en-US" (exp_translations greeting_record) = Some entries_ref /\
    entries_ref <> [] /\
    (forall m, Dict.get m entries_ref =
               lookup (extractStrings greeting "en-US") "en-US"
                 (full_id "greeting" m)) /\
    In "en-US" (complete_locales greeting_record).
Proof.
  apply (reference_entries_present insertion_order greeting "en-US"
           greeting_output "greeting" greeting_record);
    vm_compute; reflexivity.
Defined.

(** C9. In every record of the mapping [getTranslations] returns, the
    locales that key [translations] are the locales [complete_locales]
    lists: neither has a locale the other lacks, and neither repeats
    one. *)
Theorem translations_match_complete_locales H P ref out e d :
  run H P ref = Ok out ->
  Dict.get e out = Some d ->
  NoDup (Dict.keys (exp_translations d)) /\
  NoDup (complete_locales d) /\
  forall l, In l (Dict.keys (exp_translations d)) <->
            In l (complete_locales d).
Proof.
  intros R G. destruct (run_invert H P ref out R) as [J I].
  destruct (run_output H P ref out R J I) as [_ S].
  apply S in G. destruct G as (d0 & G0 & _ & ->).
  pose proof (ref_in_record H P ref out R J I e d0 G0) as Rk.
  destruct (record_wf P ref J I e d0 G0) as ([N _] & _ & _ & C).
  assert (Tt : touch ref (exp_translations d0) = exp_translations d0).
  { unfold touch. apply mem_In_keys in Rk. now rewrite Rk. }
  split; [|split].
  - unfold filtered. simpl. rewrite Tt.
    rewrite (keys_filter (fun x => negb (inb x (incomplete_locales ref d0)))).
    now apply NoDup_filter.
  - unfold filtered. simpl. rewrite C. cbn [app].
    apply NoDup_sort, NoDup_filter, NoDup_sort, N.
  - intros l. rewrite (In_complete_locales_filtered ref d0 l C).
    unfold filtered. simpl. rewrite Tt.
    rewrite (keys_filter (fun x => negb (inb x (incomplete_locales ref d0)))).
    rewrite filter_In, negb_true_iff, inb_false, In_incomplete_locales.
    destruct (completeb ref d0 l); intuition congruence.
Qed.

Lemma translations_match_complete_locales_witness :
  NoDup (Dict.keys (exp_translations greeting_record)) /\
  NoDup (complete_locales greeting_record) /\
  forall l, In l (Dict.keys (exp_translations greeting_record)) <->
            In l (complete_locales greeting_record).
Proof.
  apply (translations_match_complete_locales insertion_order greeting "en-US"
           greeting_output "greeting" greeting_record);
    vm_compute; reflexivity.
Defined.

(** C6. A pair whose localized file or reference file does not exist is
    skipped: the loop body leaves the table and the cache as they were, the
    loop goes on with the next pair, and the table [extractStrings] builds
    is the one of the project without such pairs. *)
Theorem missing_pair_skipped P ref locale st l10n_file reference_file rest :
  path_exists P l10n_file = false \/ path_exists P reference_file = false ->
  process_pair P ref locale st (l10n_file, reference_file) = st /\
  fold_left (process_pair P ref locale)
    ((l10n_file, reference_file) :: rest) st =
  fold_left (process_pair P ref locale) rest st /\
  extractStrings (without_missing P) ref = extractStrings P ref.
Proof.
  intros M. pose proof (process_pair_skip P ref locale st _ _ M) as E.
  split; [exact E|]. split.
  - cbn [fold_left]. now rewrite E.
  - apply extractStrings_without_missing.
Qed.

Lemma missing_pair_skipped_witness :
  process_pair greeting "en-US" "fr" initial
    ("fr/solo.ftl", "en-US/solo.ftl") = initial /\
  fold_left (process_pair greeting "en-US" "fr")
    [("fr/solo.ftl", "en-US/solo.ftl")] initial =
  fold_left (process_pair greeting "en-US" "fr") [] initial /\
  extractStrings (without_missing greeting) "en-US" =
  extractStrings greeting "en-US".
Proof.
  apply (missing_pair_skipped greeting "en-US" "fr" initial
           "fr/solo.ftl" "en-US/solo.ftl" []).
  left. reflexivity.
Defined.

(** C7. Insertion into a locale's table is last-write-wins: when the run
    inserts a composite key for a locale and does not insert it again for
    that locale afterwards, no other value is stored for the key after
    extraction, and the value of that last insertion is the one stored,
    for the reference locale always and for another locale when the key
    had been inserted for the reference locale before (otherwise lines
    84-89 may discard the key as obsolete). *)
Theorem last_write_wins P ref locale k v_last before after :
  write_log P ref = (before ++ (locale, k, v_last) :: after)%list ->
  (forall v', ~ In (locale, k, v') after) ->
  (forall v, lookup (extractStrings P ref) locale k = Some v -> v = v_last) /\
  (locale = ref \/ (exists v_ref, In (ref, k, v_ref) before) ->
   lookup (extractStrings P ref) locale k = Some v_last).
Proof.
  intros E N. split.
  - intros v L. apply (log_sound_extractStrings P ref) in L.
    rewrite E, (last_write_of_split locale k v_last before after N) in L.
    congruence.
  - intros C. destruct (follows_log_extractStrings P ref) as [R S].
    destruct (string_dec locale ref) as [->|Nl].
    + rewrite R, E. now apply last_write_of_split.
    + destruct C as [C|C]; [congruence|].
      apply (S locale k v_last Nl). now exists before, after.
Qed.

Lemma last_write_wins_witness :
  write_log collision "en-US" =
  ([("en-US", "greeting:hello", "Hello");
    ("en-US", "greeting:hello", "Hello");
    ("en-US", "greeting:hello", "Hi");
    ("en-US", "greeting:hello", "Hi");
    ("fr", "greeting:hello", "Bonjour")]
   ++ [("fr", "greeting:hello", "Salut")])%list /\
  (forall v,
      lookup (extractStrings collision "en-US") "fr" "greeting:hello" = Some v ->
      v = "Salut") /\
  lookup (extractStrings collision "en-US") "fr" "greeting:hello" = Some "Salut".
Proof.
  split; [vm_compute; reflexivity|].
  destruct (last_write_wins collision "en-US" "fr" "greeting:hello" "Salut"
              [("en-US", "greeting:hello", "Hello");
               ("en-US", "greeting:hello", "Hello");
               ("en-US", "greeting:hello", "Hi");
               ("en-US", "greeting:hello", "Hi");
               ("fr", "greeting:hello", "Bonjour")]
              [] eq_refl (fun v' (I : In _ []) => I)) as [A B].
  split; [exact A|].
  apply B. right. exists "Hello". simpl. tauto.
Defined.

(** C8. The pipeline is deterministic: whatever order the sets of two
    runs list their elements in, the same project gives the same mapping,
    and [main] writes the same files with the same contents. *)
Theorem run_deterministic H1 H2 P ref :
  run H1 P ref = run H2 P ref /\
  forall dump dest, main dump H1 P ref dest = main dump H2 P ref dest.
Proof.
  assert (E : forall t, getTranslations H1 ref t = getTranslations H2 ref t).
  { intros t. unfold getTranslations. destruct (invert t) as [J|]; simpl;
      [|reflexivity].
    assert (F : filter_experiments H1 ref J = filter_experiments H2 ref J).
    { induction J as [|[e d] r IH]; simpl; [reflexivity|].
      rewrite IH. f_equal. unfold filter_experiment. cbv zeta.
      destruct (classify _ _ _ _ _) as [c i].
      now rewrite !set_list_singleton by apply NoDup_set_diff. }
    now rewrite F. }
  assert (R : run H1 P ref = run H2 P ref) by apply E.
  split; [exact R|]. intros dump dest. unfold main. now rewrite R.
Qed.

(** C10. Whenever the run reads a pair for a locale, the reference
    table holds every composite key of the reference file before the
    entries of the localized file are inserted; hence the filter of lines
    84-89 at the end of the locale's iteration leaves such a key as the
    file loop left it, and a key of the reference file that the localized
    file translates is in the locale's table after extraction. *)
Theorem reference_read_before_l10n
  P ref before locale after pairs_before l10n_file reference_file pairs_after p :
  relpath_faithful P ->
  all_locales P = (before ++ locale :: after)%list ->
  ProjectFiles P locale =
    (pairs_before ++ (l10n_file, reference_file) :: pairs_after)%list ->
  path_exists P l10n_file = true ->
  path_exists P reference_file = true ->
  getParser P reference_file = Some p ->
  let st0 := fold_left (process_locale P ref) before initial in
  let st := fold_left (process_pair P ref locale) pairs_before st0 in
  let st1 := read_reference P ref p reference_file st in
  let st3 :=
    fold_left (process_pair P ref locale) (ProjectFiles P locale) st0 in
  let experiment_id := experiment_of (relpath P reference_file) in
  process_pair P ref locale st (l10n_file, reference_file) =
    read_l10n P locale p l10n_file reference_file st1 /\
  (forall k, In k (map key (parse P p reference_file)) ->
             has_key (translations st1) ref (full_id experiment_id k) = true) /\
  (forall k, In k (map key (parse P p reference_file)) ->
             lookup (translations (process_locale P ref st0 locale)) locale
               (full_id experiment_id k) =
             lookup (translations st3) locale (full_id experiment_id k)) /\
  (forall k, In k (map key (parse P p reference_file)) ->
             In k (map key (parse P p l10n_file)) ->
             has_key (extractStrings P ref) locale (full_id experiment_id k)
             = true).
Proof.
  intros F EL EP X1 X2 G st0 st st1 st3 e.
  assert (IL : In locale (all_locales P))
    by (rewrite EL; apply in_or_app; right; now left).
  assert (IR : In reference_file (reference_files P)).
  { apply (In_reference_files P locale (l10n_file, reference_file) IL).
    rewrite EP. apply in_or_app. right. now left. }
  assert (C : cache_sound P ref st).
  { apply cache_sound_fold_pairs.
    - intros pr I. apply (In_reference_files P locale pr IL).
      rewrite EP. apply in_or_app. now left.
    - apply cache_sound_fold_locales; [|apply cache_sound_initial].
      intros x I. rewrite EL. apply in_or_app. now left. }
  assert (S1 : forall k, In k (map key (parse P p reference_file)) ->
                         lookup (translations st1) ref (full_id e k) <> None).
  { intros k Ik. now apply read_reference_present. }
  pose proof (process_pair_read P ref locale st _ _ p X1 X2 G) as E2.
  fold st1 in E2.
  set (st2 := process_pair P ref locale st (l10n_file, reference_file)).
  assert (E3 : st3 = fold_left (process_pair P ref locale) pairs_after st2).
  { unfold st3. rewrite EP, fold_left_app. reflexivity. }
  assert (B3 : forall k, In k (map key (parse P p reference_file)) ->
                         lookup (translations st3) ref (full_id e k) <> None).
  { intros k Ik. rewrite E3. apply fold_pairs_mono.
    unfold st2. rewrite E2. now apply read_l10n_mono, S1. }
  assert (L4 : forall k, In k (map key (parse P p reference_file)) ->
                         lookup (translations (process_locale P ref st0 locale))
                           locale (full_id e k) =
                         lookup (translations st3) locale (full_id e k)).
  { intros k Ik. rewrite lookup_process_locale. cbv zeta. fold st3.
    destruct ((locale =? locale) && negb (locale =? ref)); [|reflexivity].
    pose proof (B3 k Ik) as B. apply has_key_lookup in B. now rewrite B. }
  split; [exact E2|]. split; [|split].
  - intros k Ik. apply has_key_lookup. now apply S1.
  - exact L4.
  - intros k Ik Il. apply has_key_lookup.
    assert (A3 : lookup (translations st3) locale (full_id e k) <> None).
    { rewrite E3. apply fold_pairs_mono.
      unfold st2. rewrite E2. now apply read_l10n_present. }
    set (st4 := process_locale P ref st0 locale).
    assert (A4 : lookup (translations st4) locale (full_id e k) <> None).
    { unfold st4. now rewrite (L4 k Ik). }
    assert (B4 : lookup (translations st4) ref (full_id e k) <> None).
    { unfold st4. rewrite lookup_process_locale. cbv zeta. fold st3.
      replace ((locale =? ref) && negb (locale =? ref)) with false
        by now destruct (locale =? ref).
      now apply B3. }
    unfold extractStrings, extract_state. rewrite EL, fold_left_app.
    cbn [fold_left]. fold st0. fold st4.
    now apply fold_locales_keeps.
Qed.

Lemma reference_read_before_l10n_witness :
  let st0 := fold_left (process_locale greeting "en-US") ["de"; "en-US"] initial in
  let st := fold_left (process_pair greeting "en-US" "fr") [] st0 in
  let st1 := read_reference greeting "en-US" "ftl" "en-US/greeting.ftl" st in
  let st3 :=
    fold_left (process_pair greeting "en-US" "fr") (ProjectFiles greeting "fr")
      st0 in
  let experiment_id := experiment_of (relpath greeting "en-US/greeting.ftl") in
  process_pair greeting "en-US" "fr" st
    ("fr/greeting.ftl", "en-US/greeting.ftl") =
    read_l10n greeting "fr" "ftl" "fr/greeting.ftl" "en-US/greeting.ftl" st1 /\
  (forall k,
      In k (map key (parse greeting "ftl" "en-US/greeting.ftl")) ->
      has_key (translations st1) "en-US" (full_id experiment_id k) = true) /\
  (forall k,
      In k (map key (parse greeting "ftl" "en-US/greeting.ftl")) ->
      lookup (translations (process_locale greeting "en-US" st0 "fr")) "fr"
        (full_id experiment_id k) =
      lookup (translations st3) "fr" (full_id experiment_id k)) /\
  (forall k,
      In k (map key (parse greeting "ftl" "en-US/greeting.ftl")) ->
      In k (map key (parse greeting "ftl" "fr/greeting.ftl")) ->
      has_key (extractStrings greeting "en-US") "fr" (full_id experiment_id k)
      = true).
Proof.
  apply (reference_read_before_l10n greeting "en-US" ["de"; "en-US"] "fr" []
           [] "fr/greeting.ftl" "en-US/greeting.ftl"
           [("fr/solo.ftl", "en-US/solo.ftl")] "ftl").
  - intros f f' _ _ E. exact E.
  - reflexivity.
  - reflexivity.
  - reflexivity.
  - reflexivity.
  - reflexivity.
Defined.

(** C4. [getTranslations] raises on a table that extraction produced:
    the composite key of an entity whose name contains a colon does not
    split in two, and unpacking it is a [ValueError]. *)
Theorem getTranslations_raises_on_colon H :
  run H colon "en-US" = Raise ValueError.
Proof. reflexivity. Qed.

(** The same happens when the colon is in the name of the file. *)
Lemma getTranslations_raises_on_colon_in_name H :
  extractStrings colon_name "en-US" =
    [("en-US", [("new:tab:title", "New Tab")]);
     ("fr", [("new:tab:title", "Nouvel onglet")])] /\
  run H colon_name "en-US" = Raise ValueError.
Proof. split; reflexivity. Qed.

(** Unpacking is the only thing that can go wrong: no deletion of the
    filtering loop ever raises, and when every composite key has exactly
    one colon the pass returns. *)
Lemma getTranslations_raises_only_ValueError H P ref x :
  run H P ref = Raise x -> x = ValueError.
Proof.
  unfold run. intros R.
  destruct (invert (extractStrings P ref)) as [J|x'] eqn:I.
  - destruct (invert_Ok _ J (wf_extractStrings P ref) I) as (W & _).
    destruct (getTranslations_Ok H ref _ J I W) as (out & E & _). congruence.
  - unfold getTranslations in R. rewrite I in R. simpl in R.
    injection R as <-. unfold invert in I. revert I.
    generalize (@nil (string * ExpData)).
    induction (extractStrings P ref) as [|[l d] r IH]; intros J; simpl;
      [discriminate|].
    destruct (foldM (add_messages l) d J) as [J1|x1] eqn:A; simpl.
    + apply IH.
    + intros [= <-]. clear IH. revert J A.
      induction d as [|[k v] r0 IH0]; intros J; simpl; [discriminate|].
      unfold add_messages at 1. simpl. unfold unpack_id.
      destruct (split ":"%char k) as [|a [|b [|c t]]]; simpl;
        try (intros [= <-]; reflexivity).
      apply IH0.
Qed.

Lemma getTranslations_returns_on_single_colons H P ref :
  (forall l d kv, In (l, d) (extractStrings P ref) -> In kv d ->
                  count_colons (fst kv) = 1) ->
  exists out, run H P ref = Ok out.
Proof.
  intros U. destruct (invert_total _ U) as [J I].
  destruct (invert_Ok _ J (wf_extractStrings P ref) I) as (W & _).
  destruct (getTranslations_Ok H ref _ J I W) as (out & E & _).
  now exists out.
Qed.

(** * Further properties *)

(** ** Where the entries of a table come from *)

Lemma last_write_In {V : Type} k (v : V) es :
  last_write k es = Some v -> In (k, v) es.
Proof.
  induction es as [|[k' v'] r IH]; simpl; [discriminate|].
  destruct (last_write k r) as [v0|].
  - intros [= ->]. right. now apply IH.
  - destruct (k' =? k) eqn:E; [|discriminate].
    apply String.eqb_eq in E. intros [= ->]. subst. now left.
Qed.

Lemma In_writes_to l k v log :
  In (k, v) (writes_to l log) -> In (l, k, v) log.
Proof.
  unfold writes_to. rewrite in_flat_map.
  intros ([[l0 k0] v0] & I & Ik). simpl in Ik.
  destruct (l0 =? l) eqn:E; [|destruct Ik].
  apply String.eqb_eq in E. destruct Ik as [[= -> ->]|[]]. now subst.
Qed.

Lemma In_tag l l' k v es : In (l', k, v) (tag l es) -> l' = l /\ In (k, v) es.
Proof.
  unfold tag. rewrite in_map_iff. intros ([k0 v0] & [= <- <- <-] & I).
  now split.
Qed.

Lemma In_entries e k v es :
  In (k, v) (entries e es) ->
  exists entity, In entity es /\ k = full_id e (key entity) /\ v = raw_val entity.
Proof.
  unfold entries. rewrite in_map_iff. intros (x & [= <- <-] & I).
  now exists x.
Qed.

Lemma pair_writes_provenance P ref L st pr l k v :
  In L (all_locales P) -> In pr (ProjectFiles P L) ->
  In (l, k, v) (pair_writes P ref L st pr) ->
  (l = L /\ l10n_entry P l k v) \/ (l = ref /\ reference_entry P k v).
Proof.
  intros IL Ip. destruct pr as [lf rf]. unfold pair_writes.
  destruct (path_exists P lf) eqn:X1; simpl; [|intros []].
  destruct (path_exists P rf) eqn:X2; simpl; [|intros []].
  destruct (getParser P rf) as [p|] eqn:G; [|intros []].
  assert (R : readable P (lf, rf) = true).
  { unfold readable, both_exist. simpl. now rewrite X1, X2, G. }
  rewrite in_app_iff. intros [I|I].
  - destruct (Dict.mem _ _); [destruct I|].
    apply In_tag in I. destruct I as [-> I]. apply In_entries in I.
    destruct I as (x & Ix & -> & ->). right. split; [reflexivity|].
    now exists L, lf, rf, p, x.
  - apply In_tag in I. destruct I as [-> I]. apply In_entries in I.
    destruct I as (x & Ix & -> & ->). left. split; [reflexivity|].
    now exists lf, rf, p, x.
Qed.

Lemma pairs_writes_provenance P ref L pairs st l k v :
  In L (all_locales P) -> incl pairs (ProjectFiles P L) ->
  In (l, k, v) (pairs_writes P ref L pairs st) ->
  (l = L /\ l10n_entry P l k v) \/ (l = ref /\ reference_entry P k v).
Proof.
  intros IL. revert st. induction pairs as [|pr r IH]; intros st Ip; simpl;
    [intros []|].
  rewrite in_app_iff. intros [I|I].
  - apply (pair_writes_provenance P ref L st pr); auto. apply Ip. now left.
  - apply (IH _ (fun x Ix => Ip x (or_intror Ix)) I).
Qed.

Lemma locales_writes_provenance P ref locales st l k v :
  incl locales (all_locales P) ->
  In (l, k, v) (locales_writes P ref locales st) ->
  l10n_entry P l k v \/ (l = ref /\ reference_entry P k v).
Proof.
  revert st. induction locales as [|L r IH]; intros st Il; simpl; [intros []|].
  rewrite in_app_iff. intros [I|I].
  - apply pairs_writes_provenance in I;
      [|apply Il; now left | apply incl_refl].
    destruct I as [[_ I]|I]; [now left | now right].
  - apply (IH _ (fun x Ix => Il x (or_intror Ix)) I).
Qed.

(** X1. Every entry of the table [extractStrings] builds was parsed
    from a file of the project that the loop read: an entry of a locale
    comes from one of that locale's own localized files, or, for the
    reference locale, from a reference file. *)
Theorem entries_come_from_files P ref locale k v :
  lookup (extractStrings P ref) locale k = Some v ->
  l10n_entry P locale k v \/ (locale = ref /\ reference_entry P k v).
Proof.
  intros L. apply (log_sound_extractStrings P ref) in L.
  apply last_write_In, In_writes_to in L.
  exact (locales_writes_provenance P ref (all_locales P) initial locale k v
           (incl_refl _) L).
Qed.

Lemma entries_come_from_files_witness :
  l10n_entry greeting "fr" "greeting:bye" "Au revoir" \/
  ("fr" = "en-US" /\ reference_entry greeting "greeting:bye" "Au revoir").
Proof.
  apply (entries_come_from_files greeting "en-US" "fr" "greeting:bye"
           "Au revoir").
  vm_compute. reflexivity.
Defined.

(** ** When the reshape-and-filter pass raises *)

Import MoreSamples.

(** X2. The only exception [getTranslations] raises on a table that
    [extractStrings] built is the [ValueError] of line 98 (lemma
    [getTranslations_raises_only_ValueError]): the deletions of lines 127
    and 136 never raise [KeyError]. *)
Lemma getTranslations_raises_only_ValueError_witness :
  ValueError = ValueError.
Proof.
  apply (getTranslations_raises_only_ValueError insertion_order colon "en-US").
  reflexivity.
Defined.

(** X3. On a table that [extractStrings] built, [getTranslations]
    returns a mapping exactly when every composite key of the table has
    one colon and no more. *)
Theorem getTranslations_returns_iff H P ref :
  (exists out, run H P ref = Ok out) <->
  (forall l d kv, In (l, d) (extractStrings P ref) -> In kv d ->
                  count_colons (fst kv) = 1).
Proof.
  split.
  - intros [out R] l d kv Il Ik. apply unpack_id_count.
    exact (run_unpack H P ref out R l d kv Il Ik).
  - apply getTranslations_returns_on_single_colons.
Qed.

Lemma In_table_lookup t l d k v :
  wf_table t -> In (l, d) t -> In (k, v) d -> lookup t l k = Some v.
Proof.
  intros [N W] Il Ik. unfold lookup, dd_get.
  rewrite (In_get l d t N Il). apply In_get; [eauto | assumption].
Qed.

(** X4. When no stem of a reference file and no entity key of the files
    that are read contains a colon, extraction followed by
    [getTranslations] returns a mapping. *)
Theorem colon_free_project_returns H P ref :
  colon_free P -> exists out, run H P ref = Ok out.
Proof.
  intros C. apply getTranslations_returns_on_single_colons.
  intros l d [k v] Il Ik. simpl.
  pose proof (In_table_lookup _ l d k v (wf_extractStrings P ref) Il Ik) as L.
  apply (log_sound_extractStrings P ref) in L.
  apply last_write_In, In_writes_to in L.
  apply (locales_writes_provenance P ref (all_locales P) initial l k v
           (incl_refl _)) in L.
  destruct L as [(lf & rf & p & x & I1 & I2 & R & G & Ix & -> & _)
                |(_ & l0 & lf & rf & p & x & I1 & I2 & R & G & Ix & -> & _)].
  - destruct (C l lf rf p I1 I2 R G) as [Ce Ck].
    rewrite count_colons_full_id, Ce, (Ck x (or_introl Ix)). reflexivity.
  - destruct (C l0 lf rf p I1 I2 R G) as [Ce Ck].
    rewrite count_colons_full_id, Ce, (Ck x (or_intror Ix)). reflexivity.
Qed.

Lemma colon_free_greeting : colon_free greeting.
Proof.
  intros locale lf rf p Il Ip _ _.
  assert (E : rf = "en-US/greeting.ftl" \/ rf = "en-US/solo.ftl").
  { simpl in Ip. destruct Ip as [[= _ <-]|[[= _ <-]|[]]]; auto. }
  assert (F : forall f entity,
             In entity (parse greeting p f) ->
             count_colons (key entity) = 0).
  { intros f entity. simpl.
    repeat (match goal with
            | |- context [if ?b then _ else _] => destruct b
            end);
      simpl; intuition (subst; reflexivity). }
  split.
  - destruct E as [-> | ->]; reflexivity.
  - intros entity [I|I]; exact (F _ _ I).
Qed.

Lemma colon_free_project_returns_witness :
  exists out, run insertion_order greeting "en-US" = Ok out.
Proof.
  apply (colon_free_project_returns insertion_order greeting "en-US").
  exact colon_free_greeting.
Defined.

(** ** Pairs that are not read *)

Lemma process_pair_unreadable P ref L st pr :
  readable P pr = false -> process_pair P ref L st pr = st.
Proof.
  intros R. destruct (process_pair_cases P ref L st pr)
    as [E|(p & X1 & X2 & G & _)]; [exact E|].
  unfold readable, both_exist in R. now rewrite X1, X2, G in R.
Qed.

Lemma fold_pairs_only_readable P ref L pairs st :
  fold_left (process_pair P ref L) (filter (readable P) pairs) st =
  fold_left (process_pair P ref L) pairs st.
Proof.
  revert st. induction pairs as [|pr r IH]; intros st;
    cbn [filter fold_left]; [reflexivity|].
  destruct (readable P pr) eqn:B; cbn [fold_left]; [apply IH|].
  now rewrite IH, (process_pair_unreadable P ref L st pr B).
Qed.

Lemma extract_state_only_readable P ref :
  extract_state (only_readable P) ref = extract_state P ref.
Proof.
  unfold extract_state.
  change (all_locales (only_readable P)) with (all_locales P).
  generalize initial.
  induction (all_locales P) as [|L r IH]; intros st; simpl; [reflexivity|].
  rewrite IH. f_equal. unfold process_locale. cbv zeta.
  change (fold_left (process_pair (only_readable P) ref L)
            (ProjectFiles (only_readable P) L) st)
    with (fold_left (process_pair P ref L)
            (filter (readable P) (ProjectFiles P L)) st).
  now rewrite fold_pairs_only_readable.
Qed.

(** X5. A pair whose reference file has a format for which
    [parser.getParser] raises [UserWarning] is skipped like a missing
    one: the loop body leaves the table and the cache as they were, the
    loop goes on, and the state after extraction (table and cache) is the
    one of the project without the pairs that are not read. *)
Theorem unknown_format_skipped P ref locale st l10n_file reference_file rest :
  getParser P reference_file = None ->
  process_pair P ref locale st (l10n_file, reference_file) = st /\
  fold_left (process_pair P ref locale)
    ((l10n_file, reference_file) :: rest) st =
  fold_left (process_pair P ref locale) rest st /\
  extract_state (only_readable P) ref = extract_state P ref.
Proof.
  intros G.
  assert (E : process_pair P ref locale st (l10n_file, reference_file) = st).
  { apply process_pair_unreadable. unfold readable. simpl. rewrite G.
    apply andb_false_r. }
  split; [exact E|]. split.
  - cbn [fold_left]. now rewrite E.
  - apply extract_state_only_readable.
Qed.

Lemma unknown_format_skipped_witness :
  process_pair unknown_format "en-US" "fr" initial
    ("fr/notes.txt", "en-US/notes.txt") = initial /\
  fold_left (process_pair unknown_format "en-US" "fr")
    [("fr/notes.txt", "en-US/notes.txt");
     ("fr/greeting.ftl", "en-US/greeting.ftl")] initial =
  fold_left (process_pair unknown_format "en-US" "fr")
    [("fr/greeting.ftl", "en-US/greeting.ftl")] initial /\
  extract_state (only_readable unknown_format) "en-US" =
  extract_state unknown_format "en-US".
Proof.
  apply (unknown_format_skipped unknown_format "en-US" "fr" initial
           "fr/notes.txt" "en-US/notes.txt"
           [("fr/greeting.ftl", "en-US/greeting.ftl")]).
  reflexivity.
Defined.

Lemma invert_empty_dicts t :
  (forall l d, In (l, d) t -> d = []) -> invert t = Ok [].
Proof.
  intros E. unfold invert.
  assert (F : forall J : Output,
             foldM (fun json_output lm =>
                      foldM (add_messages (fst lm)) (snd lm) json_output)
               t J = Ok J); [|apply F].
  induction t as [|[l d] r IH]; intros J; simpl; [reflexivity|].
  rewrite (E l d (or_introl eq_refl)). simpl.
  apply IH. intros l' d' I. apply (E l' d'). now right.
Qed.

(** X6. When no pair of the configuration is read (no locales, no
    files on disk, or unknown formats only), nothing is extracted, the
    mapping [getTranslations] returns is empty and [main] writes no
    file. *)
Theorem nothing_read_nothing_written H P ref dump dest :
  (forall locale pair,
      In locale (all_locales P) -> In pair (ProjectFiles P locale) ->
      readable P pair = false) ->
  (forall locale k, lookup (extractStrings P ref) locale k = None) /\
  run H P ref = Ok [] /\
  main dump H P ref dest = Ok [].
Proof.
  intros N.
  assert (L : forall locale k, lookup (extractStrings P ref) locale k = None).
  { intros locale k.
    destruct (lookup (extractStrings P ref) locale k) as [v|] eqn:E;
      [|reflexivity].
    exfalso. apply (log_sound_extractStrings P ref) in E.
    apply last_write_In, In_writes_to in E.
    apply (locales_writes_provenance P ref (all_locales P) initial locale k v
             (incl_refl _)) in E.
    destruct E as [(lf & rf & p & x & I1 & I2 & R & _)
                  |(_ & l0 & lf & rf & p & x & I1 & I2 & R & _)].
    - rewrite (N locale (lf, rf) I1 I2) in R. discriminate.
    - rewrite (N l0 (lf, rf) I1 I2) in R. discriminate. }
  assert (R : run H P ref = Ok []).
  { unfold run, getTranslations. rewrite invert_empty_dicts; [reflexivity|].
    intros l d I. destruct d as [|[k v] r]; [reflexivity|]. exfalso.
    pose proof (In_table_lookup _ l _ k v (wf_extractStrings P ref) I
                  (or_introl eq_refl)) as E.
    rewrite L in E. discriminate. }
  split; [exact L|]. split; [exact R|].
  unfold main. now rewrite R.
Qed.

Lemma nothing_read_nothing_written_witness :
  (forall locale k,
      lookup (extractStrings nothing_on_disk "en-US") locale k = None) /\
  run insertion_order nothing_on_disk "en-US" = Ok [] /\
  main (fun _ => "{}") insertion_order nothing_on_disk "en-US" "dest" = Ok [].
Proof.
  apply (nothing_read_nothing_written insertion_order nothing_on_disk "en-US"
           (fun _ => "{}") "dest").
  intros locale pair _ _. reflexivity.
Defined.

(** ** The locales of the table *)

Lemma In_keys_table_update l l' es (t : Table) :
  In l' (Dict.keys (table_update l es t)) <-> l' = l \/ In l' (Dict.keys t).
Proof. unfold table_update. apply In_keys_set. Qed.

Lemma keys_process_pair P ref L st pr l :
  (In l (Dict.keys (translations st)) ->
   In l (Dict.keys (translations (process_pair P ref L st pr)))) /\
  (In l (Dict.keys (translations (process_pair P ref L st pr))) ->
   l = L \/ l = ref \/ In l (Dict.keys (translations st))).
Proof.
  destruct (process_pair_cases P ref L st pr) as [->|(p & _ & _ & _ & ->)];
    [tauto|].
  unfold read_l10n, read_reference. cbn [translations].
  destruct (Dict.mem _ _); cbn [translations];
    rewrite ?In_keys_table_update; tauto.
Qed.

Lemma keys_fold_pairs P ref L pairs st l :
  (In l (Dict.keys (translations st)) ->
   In l (Dict.keys (translations (fold_left (process_pair P ref L) pairs st)))) /\
  (In l (Dict.keys (translations (fold_left (process_pair P ref L) pairs st))) ->
   l = L \/ l = ref \/ In l (Dict.keys (translations st))).
Proof.
  revert st. induction pairs as [|pr r IH]; intros st; simpl; [tauto|].
  destruct (IH (process_pair P ref L st pr)) as [M B].
  destruct (keys_process_pair P ref L st pr l) as [M1 B1]. tauto.
Qed.

Lemma keys_remove_obsolete ref L (t : Table) l :
  (In l (Dict.keys t) -> In l (Dict.keys (remove_obsolete ref L t))) /\
  (In l (Dict.keys (remove_obsolete ref L t)) ->
   l = L \/ l = ref \/ In l (Dict.keys t)).
Proof.
  unfold remove_obsolete. cbv zeta. rewrite In_keys_set.
  destruct (dd_get L (touch L t)); rewrite !In_keys_touch; tauto.
Qed.

Lemma keys_process_locale P ref st L l :
  (In l (Dict.keys (translations st)) \/ l = L ->
   In l (Dict.keys (translations (process_locale P ref st L)))) /\
  (In l (Dict.keys (translations (process_locale P ref st L))) ->
   l = L \/ l = ref \/ In l (Dict.keys (translations st))).
Proof.
  unfold process_locale. cbv zeta. cbn [translations].
  rewrite In_keys_touch.
  destruct (keys_fold_pairs P ref L (ProjectFiles P L) st l) as [M B].
  destruct (L =? ref); [tauto|].
  destruct (keys_remove_obsolete ref L
              (translations (fold_left (process_pair P ref L)
                               (ProjectFiles P L) st)) l) as [M1 B1].
  tauto.
Qed.

Lemma keys_fold_locales P ref locales st l :
  (In l (Dict.keys (translations st)) \/ In l locales ->
   In l (Dict.keys (translations
                      (fold_left (process_locale P ref) locales st)))) /\
  (In l (Dict.keys (translations
                      (fold_left (process_locale P ref) locales st))) ->
   In l locales \/ l = ref \/ In l (Dict.keys (translations st))).
Proof.
  revert st. induction locales as [|L r IH]; intros st; simpl; [tauto|].
  destruct (IH (process_locale P ref st L)) as [M B].
  destruct (keys_process_locale P ref st L l) as [M1 B1].
  split.
  - intros [I|[E|I]]; apply M; auto.
  - intros I. apply B in I. destruct I as [I|[I|I]]; [tauto | tauto|].
    apply B1 in I. intuition.
Qed.

(** X7. After [extractStrings], the table has an entry, possibly
    empty, for every locale of the configuration, and for no other locale
    but the reference one. *)
Theorem table_locales P ref l :
  (In l (all_locales P) -> In l (Dict.keys (extractStrings P ref))) /\
  (In l (Dict.keys (extractStrings P ref)) -> In l (all_locales P) \/ l = ref).
Proof.
  unfold extractStrings, extract_state.
  destruct (keys_fold_locales P ref (all_locales P) initial l) as [M B].
  split; [auto|]. intros I. apply B in I. simpl in I. tauto.
Qed.

(** ** The records of the output *)

Lemma get_filtered ref d0 l dl :
  In ref (Dict.keys (exp_translations d0)) ->
  Dict.get l (exp_translations (filtered ref d0)) = Some dl ->
  Dict.get l (exp_translations d0) = Some dl /\ completeb ref d0 l = true.
Proof.
  intros Rk. unfold filtered. cbn [exp_translations].
  assert (Tt : touch ref (exp_translations d0) = exp_translations d0).
  { unfold touch. apply mem_In_keys in Rk. now rewrite Rk. }
  rewrite Tt, (get_filter (fun x => negb (inb x (incomplete_locales ref d0)))).
  destruct (inb l (incomplete_locales ref d0)) eqn:B; simpl; [discriminate|].
  intros G. split; [exact G|].
  apply inb_false in B. rewrite In_incomplete_locales in B.
  destruct (completeb ref d0 l); [reflexivity|].
  exfalso. apply B. split; [|reflexivity].
  apply In_keys_get. congruence.
Qed.

(** X8. [getTranslations] neither invents nor alters nor drops a
    translation of a locale it keeps: in every record of the output, the
    entries under a locale are exactly the entries the table has for
    that locale and that experiment, and there is at least one. *)
Theorem output_entries_are_table_entries H P ref out e d l entries_l :
  run H P ref = Ok out ->
  Dict.get e out = Some d ->
  Dict.get l (exp_translations d) = Some entries_l ->
  entries_l <> [] /\
  forall m, Dict.get m entries_l =
            lookup (extractStrings P ref) l (full_id e m).
Proof.
  intros R G Gl. destruct (run_invert H P ref out R) as [J I].
  destruct (run_output H P ref out R J I) as [_ S].
  apply S in G. destruct G as (d0 & G0 & _ & ->).
  pose proof (ref_in_record H P ref out R J I e d0 G0) as Rk.
  destruct (get_filtered ref d0 l entries_l Rk Gl) as [G1 _].
  destruct (record_wf P ref J I e d0 G0) as (_ & _ & Wn & _). split.
  - apply get_In in G1. eauto.
  - intros m. rewrite <- (olookup_record P ref J I e d0 l m G0).
    unfold dd_get. now rewrite G1.
Qed.

Lemma output_entries_are_table_entries_witness :
  [("hello", "Bonjour"); ("bye", "Au revoir")] <> [] /\
  forall m, Dict.get m [("hello", "Bonjour"); ("bye", "Au revoir")] =
            lookup (extractStrings greeting "en-US") "fr"
              (full_id "greeting" m).
Proof.
  apply (output_entries_are_table_entries insertion_order greeting "en-US"
           greeting_output "greeting" greeting_record "fr");
    vm_compute; reflexivity.
Defined.

(** X9. In every record of the output, every locale has the message
    ids of the reference locale, no fewer and no more: the files written
    carry the same keys under each locale. *)
Theorem output_locales_share_message_ids H P ref out e d l m :
  run H P ref = Ok out ->
  Dict.get e out = Some d ->
  In l (Dict.keys (exp_translations d)) ->
  In m (Dict.keys (dd_get l (exp_translations d))) <->
  In m (Dict.keys (dd_get ref (exp_translations d))).
Proof.
  intros R G Il. destruct (run_invert H P ref out R) as [J I].
  destruct (run_output H P ref out R J I) as [_ S].
  apply S in G. destruct G as (d0 & G0 & _ & ->).
  pose proof (ref_in_record H P ref out R J I e d0 G0) as Rk.
  apply In_keys_get in Il.
  destruct (Dict.get l (exp_translations (filtered ref d0))) as [dl|] eqn:Gl;
    [|congruence]. clear Il.
  destruct (get_filtered ref d0 l dl Rk Gl) as [G1 C1].
  assert (Gr : exists dr,
             Dict.get ref (exp_translations (filtered ref d0)) = Some dr /\
             Dict.get ref (exp_translations d0) = Some dr).
  { pose proof Rk as Gr. apply In_keys_get in Gr.
    destruct (Dict.get ref (exp_translations d0)) as [dr|] eqn:E; [|congruence].
    exists dr. split; [|reflexivity].
    unfold filtered. cbn [exp_translations].
    rewrite (get_filter (fun x => negb (inb x (incomplete_locales ref d0)))).
    assert (B : inb ref (incomplete_locales ref d0) = false).
    { apply inb_false. rewrite In_incomplete_locales, completeb_ref.
      intros [_ F]. discriminate. }
    rewrite B. simpl. unfold touch.
    apply mem_In_keys in Rk. now rewrite Rk. }
  destruct Gr as (dr & Gr & Gr0).
  assert (El : dd_get l (exp_translations (filtered ref d0)) =
               dd_get l (exp_translations d0))
    by (unfold dd_get; now rewrite Gl, G1).
  assert (Er : dd_get ref (exp_translations (filtered ref d0)) =
               dd_get ref (exp_translations d0))
    by (unfold dd_get; now rewrite Gr, Gr0).
  rewrite El, Er. split.
  - rewrite !In_keys_get, !(olookup_record P ref J I e d0 _ m G0).
    destruct (string_dec l ref) as [->|N]; [trivial|].
    exact (clean_extract_state P ref l (full_id e m) N N).
  - apply is_complete_incl in C1. apply C1.
Qed.

Lemma output_locales_share_message_ids_witness :
  In "bye" (Dict.keys (dd_get "fr" (exp_translations greeting_record))) <->
  In "bye" (Dict.keys (dd_get "en-US" (exp_translations greeting_record))).
Proof.
  apply (output_locales_share_message_ids insertion_order greeting "en-US"
           greeting_output "greeting" greeting_record "fr" "bye").
  - vm_compute. reflexivity.
  - vm_compute. reflexivity.
  - simpl. tauto.
Defined.

(** ** Experiment ids and file names *)

Lemma length_append a b :
  String.length (a ++ b) = String.length a + String.length b.
Proof. induction a as [|c r IH]; simpl; [reflexivity | now rewrite IH]. Qed.

Lemma substring_all s : substring 0 (String.length s) s = s.
Proof. induction s as [|c r IH]; simpl; [reflexivity | now rewrite IH]. Qed.

Lemma substring_skip a n m s :
  substring (String.length a + n) m (a ++ s) = substring n m s.
Proof. induction a as [|c r IH]; simpl; [reflexivity | exact IH]. Qed.

(** [rfind] finds the last occurrence, if there is one. *)
Lemma rfind_from_last c s i :
  (0 <= i)%Z ->
  (contains c s = false /\ rfind_from c s i = (-1)%Z) \/
  (exists a b, s = a ++ String c b /\ contains c b = false /\
               rfind_from c s i = (i + Z.of_nat (String.length a))%Z).
Proof.
  revert i. induction s as [|x r IH]; intros i Hi; simpl; [now left|].
  destruct (IH (i + 1)%Z ltac:(lia)) as [[N ->]|(a & b & -> & N & ->)].
  - simpl. destruct (Ascii.eqb x c) eqn:E; simpl.
    + apply Ascii.eqb_eq in E. subst x. right. exists EmptyString, r.
      repeat split; [assumption | simpl; lia].
    + left. now split.
  - right. exists (String x a), b. repeat split; [assumption|].
    destruct (0 <=? i + 1 + Z.of_nat (String.length a))%Z eqn:L;
      [simpl String.length; lia|].
    apply Z.leb_gt in L. lia.
Qed.

(** [os.path.basename] returns a name without separator. *)
Lemma basename_no_slash p : contains "/"%char (basename p) = false.
Proof.
  unfold basename, rfind, slice.
  destruct (rfind_from_last "/"%char p 0 ltac:(lia))
    as [[N ->]|(a & b & -> & N & ->)].
  - simpl Z.to_nat. rewrite Z.sub_0_r, Nat2Z.id, substring_all. exact N.
  - rewrite length_append. simpl String.length.
    replace (Z.to_nat (0 + Z.of_nat (String.length a) + 1))
      with (String.length a + 1) by lia.
    replace (Z.to_nat
               (Z.of_nat (String.length a + S (String.length b)) -
                (0 + Z.of_nat (String.length a) + 1)))
      with (String.length b) by lia.
    rewrite substring_skip. simpl. now rewrite substring_all.
Qed.

(** The experiments of the output are stems of reference files that
    were read. *)
Lemma output_experiment_stem H P ref out e :
  run H P ref = Ok out -> In e (Dict.keys out) ->
  exists locale l10n_file reference_file,
    In locale (all_locales P) /\
    In (l10n_file, reference_file) (ProjectFiles P locale) /\
    readable P (l10n_file, reference_file) = true /\
    e = experiment_of (relpath P reference_file).
Proof.
  intros R Ie. destruct (run_invert H P ref out R) as [J I].
  destruct (run_output H P ref out R J I) as [_ S].
  assert (Ix : In e (experiments (extractStrings P ref))).
  { apply (In_experiments H P ref out R J I). apply In_keys_get in Ie.
    destruct (Dict.get e out) as [d|] eqn:G; [|congruence].
    apply S in G. destruct G as (d0 & G0 & _). apply In_keys_get. congruence. }
  unfold experiments in Ix. apply in_flat_map in Ix.
  destruct Ix as ([l d] & Il & Ix). apply in_flat_map in Ix.
  destruct Ix as ([k v] & Ik & Ix). simpl in Ix, Ik.
  destruct (unpack_id k) as [[e' m]|] eqn:U; [|destruct Ix].
  destruct Ix as [->|[]]. apply unpack_id_Ok in U.
  destruct U as (-> & Ce & Cm).
  pose proof (In_table_lookup _ l d _ v (wf_extractStrings P ref) Il Ik) as L.
  apply (log_sound_extractStrings P ref) in L.
  apply last_write_In, In_writes_to in L.
  apply (locales_writes_provenance P ref (all_locales P) initial l _ v
           (incl_refl _)) in L.
  destruct L as [(lf & rf & p & x & I1 & I2 & Rd & G & _ & F & _)
                |(_ & l0 & lf & rf & p & x & I1 & I2 & Rd & G & _ & F & _)].
  - symmetry in F. destruct (full_id_inj _ _ e m Ce Cm F) as [E _].
    now exists l, lf, rf.
  - symmetry in F. destruct (full_id_inj _ _ e m Ce Cm F) as [E _].
    now exists l0, lf, rf.
Qed.

(** X10. Every experiment of the mapping [getTranslations] returns is
    the stem (base name without extension) of a reference file that
    extraction read, and it contains no path separator. *)
Theorem output_experiments_are_stems H P ref out e :
  run H P ref = Ok out ->
  In e (Dict.keys out) ->
  contains "/"%char e = false /\
  exists locale l10n_file reference_file,
    In locale (all_locales P) /\
    In (l10n_file, reference_file) (ProjectFiles P locale) /\
    readable P (l10n_file, reference_file) = true /\
    e = experiment_of (relpath P reference_file).
Proof.
  intros R Ie.
  destruct (output_experiment_stem H P ref out e R Ie)
    as (l & lf & rf & I1 & I2 & Rd & ->).
  split; [apply basename_no_slash|]. now exists l, lf, rf.
Qed.

Lemma output_experiments_are_stems_witness :
  contains "/"%char "greeting" = false /\
  exists locale l10n_file reference_file,
    In locale (all_locales greeting) /\
    In (l10n_file, reference_file) (ProjectFiles greeting locale) /\
    readable greeting (l10n_file, reference_file) = true /\
    "greeting" = experiment_of (relpath greeting reference_file).
Proof.
  apply (output_experiments_are_stems insertion_order greeting "en-US"
           greeting_output "greeting").
  - vm_compute. reflexivity.
  - simpl. tauto.
Defined.

Lemma append_inj_l a b b' : a ++ b = a ++ b' -> b = b'.
Proof.
  induction a as [|c r IH]; simpl; [trivial|]. intros [= E]. now apply IH.
Qed.

Lemma append_inj_r a a' b : a ++ b = a' ++ b -> a = a'.
Proof.
  revert a'. induction a as [|c r IH]; intros [|c' r'] E; simpl in *.
  - reflexivity.
  - exfalso. apply (f_equal String.length) in E.
    simpl in E. rewrite length_append in E. lia.
  - exfalso. apply (f_equal String.length) in E.
    simpl in E. rewrite length_append in E. lia.
  - injection E as -> E. f_equal. now apply IH.
Qed.

(** A name that does not start with the separator is appended to the
    directory. *)
Lemma path_join_relative a e :
  contains "/"%char e = false ->
  path_join a (e ++ ".json") =
  (if (a =? "") || (0 <=? rfind "/"%char a)%Z
                   && (rfind "/"%char a =? Z.of_nat (String.length a) - 1)%Z
   then a else a ++ "/") ++ e ++ ".json".
Proof.
  intros N. unfold path_join.
  assert (Pf : prefix "/" (e ++ ".json") = false).
  { destruct e as [|c r]; [reflexivity|]. cbn [contains] in N.
    apply orb_false_iff in N. destruct N as [N _].
    cbn [append prefix].
    destruct (ascii_dec "/"%char c) as [<-|_]; [discriminate | reflexivity]. }
  rewrite Pf. destruct ((a =? "") || _); [reflexivity|].
  generalize (e ++ ".json"). intros b. clear.
  induction a as [|c r IH]; simpl in *; [reflexivity | now rewrite IH].
Qed.

(** X11. [main] writes the experiments of the output to pairwise
    distinct files: no experiment overwrites the file of another. *)
Theorem main_files_distinct dump H P ref dest files :
  main dump H P ref dest = Ok files -> NoDup (map fst files).
Proof.
  unfold main. destruct (run H P ref) as [out|] eqn:R; simpl; [|discriminate].
  intros [= <-]. rewrite map_map. simpl.
  destruct (run_invert H P ref out R) as [J I].
  destruct (run_output H P ref out R J I) as [N _].
  assert (Sl : forall e, In e (Dict.keys out) -> contains "/"%char e = false).
  { intros e Ie.
    destruct (output_experiment_stem H P ref out e R Ie)
      as (l & lf & rf & _ & _ & _ & ->).
    apply basename_no_slash. }
  clear R I. induction out as [|[e d] r IH]; simpl; [constructor|].
  inversion N as [|? ? NI N']; subst. constructor.
  - intros X. apply in_map_iff in X. destruct X as ([e' d'] & E & X).
    simpl in E.
    rewrite (path_join_relative dest e'), (path_join_relative dest e) in E.
    + apply append_inj_l, append_inj_r in E. subst e'.
      apply NI. apply in_map_iff. now exists (e, d').
    + apply Sl. now left.
    + apply Sl. right. apply in_map_iff. now exists (e', d').
  - apply IH; [assumption|]. intros e' I'. apply Sl. now right.
Qed.

Lemma main_files_distinct_witness :
  main (fun _ => "{}") insertion_order two_experiments "en-US" "dest" =
    Ok [("dest/greeting.json", "{}"); ("dest/farewell.json", "{}")] /\
  NoDup (map fst [("dest/greeting.json", "{}"); ("dest/farewell.json", "{}")]).
Proof.
  split; [vm_compute; reflexivity|].
  apply (main_files_distinct (fun _ => "{}") insertion_order two_experiments
           "en-US" "dest").
  vm_compute. reflexivity.
Defined.

(** ** The composite key, built and split *)

(** X12. Splitting a composite key (line 98) gives back the experiment
    id and the message id it was built from (lines 68 and 77) when
    neither contains a colon, and raises [ValueError] otherwise. *)
Theorem unpack_full_id_round_trip e m :
  unpack_id (full_id e m) =
  if (count_colons e =? 0)%nat && (count_colons m =? 0)%nat
  then Ok (e, m) else Raise ValueError.
Proof.
  destruct ((count_colons e =? 0)%nat && (count_colons m =? 0)%nat) eqn:C.
  - apply andb_true_iff in C. destruct C as [Ce Cm].
    apply Nat.eqb_eq in Ce, Cm. now apply unpack_full_id.
  - destruct (unpack_id (full_id e m)) as [[e' m']|x] eqn:U.
    + exfalso.
      assert (N : count_colons (full_id e m) = 1)
        by (apply unpack_id_count; now exists (e', m')).
      rewrite count_colons_full_id in N.
      apply andb_false_iff in C. destruct C as [C|C];
        apply Nat.eqb_neq in C; lia.
    + unfold unpack_id in U.
      destruct (split ":"%char (full_id e m)) as [|a [|b [|c t]]];
        congruence.
Qed.

(** ** Locales without files, and the reference table *)

Lemma fold_locales_mono_ref P ref locales st k :
  lookup (translations st) ref k <> None ->
  lookup (translations (fold_left (process_locale P ref) locales st)) ref k
  <> None.
Proof.
  revert st. induction locales as [|L r IH]; intros st N; simpl; [assumption|].
  apply IH. now apply process_locale_mono_ref.
Qed.

(** X13. A locale other than the reference one none of whose pairs is
    read ends with an empty table, and no record of the output lists it
    as complete or carries translations for it. *)
Theorem locale_without_files_absent H P ref locale :
  locale <> ref ->
  (forall pair, In pair (ProjectFiles P locale) -> readable P pair = false) ->
  (forall k, lookup (extractStrings P ref) locale k = None) /\
  (forall out e d,
      run H P ref = Ok out -> Dict.get e out = Some d ->
      ~ In locale (complete_locales d) /\
      Dict.get locale (exp_translations d) = None).
Proof.
  intros N U.
  assert (L : forall k, lookup (extractStrings P ref) locale k = None).
  { intros k.
    destruct (lookup (extractStrings P ref) locale k) as [v|] eqn:E;
      [|reflexivity].
    exfalso. apply (log_sound_extractStrings P ref) in E.
    apply last_write_In, In_writes_to in E.
    apply (locales_writes_provenance P ref (all_locales P) initial locale k v
             (incl_refl _)) in E.
    destruct E as [(lf & rf & p & x & _ & I2 & R & _)|[E _]]; [|congruence].
    rewrite (U (lf, rf) I2) in R. discriminate. }
  split; [exact L|]. intros out e d R G.
  destruct (run_invert H P ref out R) as [J I].
  destruct (run_output H P ref out R J I) as [_ S].
  apply S in G. destruct G as (d0 & G0 & _ & ->).
  pose proof (ref_in_record H P ref out R J I e d0 G0) as Rk.
  destruct (record_wf P ref J I e d0 G0) as (_ & _ & _ & C).
  assert (K : ~ In locale (Dict.keys (exp_translations d0))).
  { intros Il. apply (In_locale_keys H P ref out R J I e d0 locale G0) in Il.
    destruct (message_ids (extractStrings P ref) locale e) as [|m r] eqn:E;
      [congruence|].
    assert (Im : In m (message_ids (extractStrings P ref) locale e))
      by (rewrite E; now left).
    apply (In_message_ids H P ref out R) in Im. now apply Im. }
  split.
  - rewrite (In_complete_locales_filtered ref d0 locale C). tauto.
  - destruct (Dict.get locale (exp_translations (filtered ref d0)))
      as [dl|] eqn:Gl; [|reflexivity].
    exfalso. destruct (get_filtered ref d0 locale dl Rk Gl) as [G1 _].
    apply K, In_keys_get. congruence.
Qed.

Lemma locale_without_files_absent_witness :
  (forall k, lookup (extractStrings german_missing "en-US") "de" k = None) /\
  (forall out e d,
      run insertion_order german_missing "en-US" = Ok out ->
      Dict.get e out = Some d ->
      ~ In "de" (complete_locales d) /\
      Dict.get "de" (exp_translations d) = None).
Proof.
  apply (locale_without_files_absent insertion_order german_missing "en-US"
           "de").
  - discriminate.
  - intros pair [<-|[<-|[]]]; reflexivity.
Defined.

(** X14. When [os.path.relpath] tells the reference files apart, the
    reference table ends up with the composite key of every entity of
    every reference file that was read. *)
Theorem reference_table_complete P ref k v :
  relpath_faithful P ->
  reference_entry P k v ->
  has_key (extractStrings P ref) ref k = true.
Proof.
  intros F (L & lf & rf & p & x & IL & Ip & Rd & G & Ix & -> & _).
  apply in_split in IL. destruct IL as (before & after & EL).
  pose proof Ip as Ip'. apply in_split in Ip'.
  destruct Ip' as (pairs_before & pairs_after & EP).
  assert (IL : In L (all_locales P))
    by (rewrite EL; apply in_or_app; right; now left).
  unfold readable, both_exist in Rd. cbn [fst snd] in Rd.
  destruct (path_exists P lf) eqn:X1; [|discriminate].
  destruct (path_exists P rf) eqn:X2; [|discriminate]. clear Rd.
  set (st0 := fold_left (process_locale P ref) before initial).
  set (st := fold_left (process_pair P ref L) pairs_before st0).
  assert (C : cache_sound P ref st).
  { apply cache_sound_fold_pairs.
    - intros pr I. apply (In_reference_files P L pr IL).
      rewrite EP. apply in_or_app. now left.
    - apply cache_sound_fold_locales; [|apply cache_sound_initial].
      intros y I. rewrite EL. apply in_or_app. now left. }
  assert (S1 : lookup (translations (read_reference P ref p rf st)) ref
                 (full_id (experiment_of (relpath P rf)) (key x)) <> None).
  { apply read_reference_present; try assumption.
    - exact (In_reference_files P L (lf, rf) IL Ip).
    - now apply in_map. }
  apply has_key_lookup.
  unfold extractStrings, extract_state. rewrite EL, fold_left_app.
  cbn [fold_left]. fold st0. apply fold_locales_mono_ref.
  rewrite lookup_process_locale. cbv zeta.
  replace ((L =? ref) && negb (L =? ref)) with false
    by now destruct (L =? ref).
  rewrite EP, fold_left_app. cbn [fold_left]. fold st.
  apply fold_pairs_mono.
  rewrite (process_pair_read P ref L st lf rf p X1 X2 G).
  now apply read_l10n_mono.
Qed.

Lemma reference_table_complete_witness :
  has_key (extractStrings greeting "en-US") "en-US" "solo:a" = true.
Proof.
  apply (reference_table_complete greeting "en-US" "solo:a" "A").
  - intros f f' _ _ E. exact E.
  - exists "de", "de/solo.ftl", "en-US/solo.ftl", "ftl", (entity "a" "A").
    repeat split; simpl; tauto.
Defined.

(** ** The experiment id of a reference file *)

Lemma append_assoc a b c : (a ++ b) ++ c = a ++ b ++ c.
Proof. induction a as [|x r IH]; simpl; [reflexivity | now rewrite IH]. Qed.

Lemma contains_append c a b :
  contains c (a ++ b) = contains c a || contains c b.
Proof.
  induction a as [|x r IH]; simpl; [reflexivity|].
  now rewrite IH, orb_assoc.
Qed.

Lemma rfind_from_absent c s i : contains c s = false -> rfind_from c s i = (-1)%Z.
Proof.
  revert i. induction s as [|x r IH]; intros i; simpl; [reflexivity|].
  intros N. apply orb_false_iff in N. destruct N as [N1 N2].
  now rewrite (IH _ N2), N1.
Qed.

Lemma rfind_from_at c a b i :
  (0 <= i)%Z -> contains c b = false ->
  rfind_from c (a ++ String c b) i = (i + Z.of_nat (String.length a))%Z.
Proof.
  intros Hi N. revert i Hi. induction a as [|x r IH]; intros i Hi; simpl.
  - rewrite (rfind_from_absent c b _ N). simpl.
    rewrite Ascii.eqb_refl. lia.
  - rewrite (IH (i + 1)%Z ltac:(lia)).
    destruct (0 <=? i + 1 + Z.of_nat (String.length r))%Z eqn:L; [lia|].
    apply Z.leb_gt in L. lia.
Qed.

Lemma substring_prefix a b : substring 0 (String.length a) (a ++ b) = a.
Proof.
  induction a as [|x r IH]; simpl; [now destruct b | now rewrite IH].
Qed.

Lemma get_skip a n s : String.get (String.length a + n) (a ++ s) = String.get n s.
Proof. induction a as [|x r IH]; simpl; [reflexivity | exact IH]. Qed.

(** The index of the last separator before a name without separator
    that follows a directory, or nothing. *)
Lemma rfind_slash_before pre s :
  pre = "" \/ (exists dir, pre = dir ++ "/") ->
  contains "/"%char s = false ->
  rfind "/"%char (pre ++ s) = (Z.of_nat (String.length pre) - 1)%Z.
Proof.
  intros [->|[dir ->]] N; unfold rfind.
  - simpl. now apply rfind_from_absent.
  - rewrite append_assoc. simpl append.
    rewrite rfind_from_at by (lia || assumption).
    rewrite length_append. simpl. lia.
Qed.

Lemma basename_after pre s :
  pre = "" \/ (exists dir, pre = dir ++ "/") ->
  contains "/"%char s = false ->
  basename (pre ++ s) = s.
Proof.
  intros Hp N. unfold basename, slice.
  rewrite (rfind_slash_before pre s Hp N), length_append.
  replace (Z.to_nat (Z.of_nat (String.length pre) - 1 + 1))
    with (String.length pre + 0) by lia.
  replace (Z.to_nat
             (Z.of_nat (String.length pre + String.length s) -
              (Z.of_nat (String.length pre) - 1 + 1)))
    with (String.length s) by lia.
  rewrite substring_skip. apply substring_all.
Qed.

Lemma not_dot_branch (c : ascii) (x : bool) :
  c <> "."%char ->
  match c with "."%char => x | _ => true end = true.
Proof.
  intros N. destruct c as [[] [] [] [] [] [] [] []];
    try reflexivity; now contradiction N.
Qed.

Lemma skip_leading_dots_first p i n c :
  String.get (Z.to_nat i) p = Some c -> c <> "."%char ->
  skip_leading_dots p i (S n) = true.
Proof.
  intros G N. cbn [skip_leading_dots]. unfold char_at. rewrite G.
  now apply not_dot_branch.
Qed.

Lemma experiment_of_after pre c rest ext :
  pre = "" \/ (exists dir, pre = dir ++ "/") ->
  c <> "."%char ->
  contains "/"%char (String c rest) = false ->
  contains "/"%char ext = false ->
  contains "."%char ext = false ->
  experiment_of (pre ++ String c rest ++ "." ++ ext) = String c rest.
Proof.
  intros Hp Nc Ns Nse Nde.
  remember (String c rest) as name eqn:En.
  assert (Nall : contains "/"%char (name ++ "." ++ ext) = false).
  { rewrite contains_append, Ns. simpl. exact Nse. }
  assert (Ln : String.length name = S (String.length rest))
    by (subst name; reflexivity).
  unfold experiment_of, splitext.
  rewrite (rfind_slash_before pre _ Hp Nall).
  assert (Ed : rfind "."%char (pre ++ name ++ "." ++ ext) =
               Z.of_nat (String.length (pre ++ name))).
  { unfold rfind. rewrite <- append_assoc.
    change ("." ++ ext) with (String "."%char ext).
    rewrite rfind_from_at by (lia || assumption). lia. }
  rewrite Ed.
  assert (Lt : (Z.of_nat (String.length pre) - 1 <?
                Z.of_nat (String.length (pre ++ name)))%Z = true)
    by (apply Z.ltb_lt; rewrite length_append; lia).
  rewrite Lt. cbn [andb].
  assert (Sk : skip_leading_dots (pre ++ name ++ "." ++ ext)
                 (Z.of_nat (String.length pre) - 1 + 1)
                 (Z.to_nat
                    (Z.of_nat (String.length (pre ++ name)) -
                     (Z.of_nat (String.length pre) - 1 + 1))) = true).
  { replace (Z.to_nat
               (Z.of_nat (String.length (pre ++ name)) -
                (Z.of_nat (String.length pre) - 1 + 1)))
      with (S (String.length rest)) by (rewrite length_append; lia).
    apply (skip_leading_dots_first _ _ _ c); [|assumption].
    replace (Z.to_nat (Z.of_nat (String.length pre) - 1 + 1))
      with (String.length pre + 0) by lia.
    rewrite get_skip. subst name. reflexivity. }
  rewrite Sk. cbn [fst].
  unfold slice. rewrite Z.sub_0_r, Nat2Z.id. simpl (Z.to_nat 0).
  rewrite <- append_assoc, substring_prefix.
  now apply basename_after.
Qed.

(** X15. The experiment id of a reference file is its base name
    without extension, whatever the directory and the extension: a
    relative path [dir/name.ext], or [name.ext], gives [name] when [name]
    does not start with a dot. *)
Theorem experiment_of_stem dir c rest ext :
  c <> "."%char ->
  contains "/"%char (String c rest) = false ->
  contains "/"%char ext = false ->
  contains "."%char ext = false ->
  experiment_of (dir ++ "/" ++ String c rest ++ "." ++ ext) = String c rest /\
  experiment_of (String c rest ++ "." ++ ext) = String c rest.
Proof.
  intros Nc Ns Nse Nde. split.
  - rewrite <- (append_assoc dir "/").
    apply experiment_of_after; try assumption. right. now exists dir.
  - apply (experiment_of_after "" c rest ext); try assumption. now left.
Qed.

Lemma experiment_of_stem_witness :
  experiment_of ("en-US/a" ++ "/" ++ "greeting" ++ "." ++ "ftl") = "greeting" /\
  experiment_of ("greeting" ++ "." ++ "ftl") = "greeting".
Proof.
  apply (experiment_of_stem "en-US/a" "g" "reeting" "ftl").
  - discriminate.
  - reflexivity.
  - reflexivity.
  - reflexivity.
Defined.
